(** * Snake: the simulation core of [main.go]

    A shallow embedding of [Game.Update], [Game.init] and [Game.spawnFood]
    together with the properties of the game's state machine: movement,
    collisions, the food life cycle, the tick gate and the lives counter.

    Conventions of the embedding.
    - Go's [int] is a 64-bit two's complement integer: a [Z] on which each
      arithmetic operation of the source is followed by [GoInt.wrap].
    - A [time.Time] is the number of nanoseconds since Go's zero instant, a
      [time.Duration] a number of nanoseconds; [Time.Sub] saturates the way
      Go's does.
    - Slices are lists.  The in-place idioms of the source ([g.foods[:0]],
      [append(g.foods[:i], g.foods[i+1:]...)]) touch a backing array that no
      other slice header observes, so they are the corresponding list
      operations.
    - Everything [Update] reads from outside the [Game] value lives in an
      [Env]: the keys held down, one field per [time.Now()] call site, and
      the raw values behind the successive [rand.Intn] calls.
    - [Update] yields an [outcome]: the new state, a run-time panic
      (indexing an empty snake), or [Spinning] when the retry loop of
      [spawnFood] has used up every draw of the environment without finding
      a free cell. *)

From Stdlib Require Import ZArith List Bool Lia Ascii.
Import ListNotations.
Open Scope Z_scope.

(* ------------------------------------------------------------------ *)
(** ** Go's [int] *)

Module GoInt.

Definition min_int : Z := - 2 ^ 63.
Definition max_int : Z := 2 ^ 63 - 1.

(** Reduction of a mathematical result to the 64-bit signed range. *)
Definition wrap (z : Z) : Z := (z + 2 ^ 63) mod 2 ^ 64 - 2 ^ 63.

Definition add (a b : Z) : Z := wrap (a + b).
Definition sub (a b : Z) : Z := wrap (a - b).

Definition in_range (z : Z) : Prop := min_int <= z <= max_int.

End GoInt.

(* ------------------------------------------------------------------ *)
(** ** The fragment of package [time] the game uses *)

Module Time.

Definition Time := Z.
Definition Duration := Z.

Definition Millisecond : Duration := 1000000.
Definition Second : Duration := 1000 * Millisecond.

Definition minDuration : Duration := GoInt.min_int.
Definition maxDuration : Duration := GoInt.max_int.

(** [t.Sub(u)]: the difference, clamped to what a [Duration] can hold. *)
Definition Sub (t u : Time) : Duration :=
  if t - u <? minDuration then minDuration
  else if maxDuration <? t - u then maxDuration
  else t - u.

Definition Add (t : Time) (d : Duration) : Time := t + d.
Definition After (t u : Time) : bool := u <? t.
Definition IsZero (t : Time) : bool := t =? 0.

(** [time.Since(u)], with [now] the clock reading it takes. *)
Definition Since (now u : Time) : Duration := Sub now u.

End Time.

(* ------------------------------------------------------------------ *)
(** ** Constants and data *)

Definition screenWidth : Z := 320.
Definition screenHeight : Z := 240.
Definition gridSize : Z := 24.
Definition initialLen : nat := 3.

(** The grid in cells: [screenWidth/gridSize] by [screenHeight/gridSize]. *)
Definition gridW : Z := screenWidth / gridSize.
Definition gridH : Z := screenHeight / gridSize.

(** Capacity of the food set, the literal [4] of [Update]. *)
Definition foodCap : nat := 4.

Record Point : Type := mkPoint { X : Z; Y : Z }.

Definition Point_eqb (p q : Point) : bool :=
  (X p =? X q) && (Y p =? Y q).

Record Food : Type := mkFood {
  Pos : Point;
  Spawned : Time.Time;
  Lifetime : Time.Duration
}.

(** The fields of [Game] that the simulation reads or writes; the three
    image handles only matter to [Draw]. *)
Record Game : Type := mkGame {
  snake : list Point;
  dir : Point;
  foods : list Food;
  grow : bool;
  gameOver : bool;
  lastMove : Time.Time;
  score : Z;
  lives : Z;
  nextFoodTime : Time.Time
}.

Definition set_snake (g : Game) (s : list Point) : Game :=
  mkGame s (dir g) (foods g) (grow g) (gameOver g) (lastMove g)
         (score g) (lives g) (nextFoodTime g).
Definition set_dir (g : Game) (d : Point) : Game :=
  mkGame (snake g) d (foods g) (grow g) (gameOver g) (lastMove g)
         (score g) (lives g) (nextFoodTime g).
Definition set_foods (g : Game) (fs : list Food) : Game :=
  mkGame (snake g) (dir g) fs (grow g) (gameOver g) (lastMove g)
         (score g) (lives g) (nextFoodTime g).
Definition set_grow (g : Game) (b : bool) : Game :=
  mkGame (snake g) (dir g) (foods g) b (gameOver g) (lastMove g)
         (score g) (lives g) (nextFoodTime g).
Definition set_gameOver (g : Game) (b : bool) : Game :=
  mkGame (snake g) (dir g) (foods g) (grow g) b (lastMove g)
         (score g) (lives g) (nextFoodTime g).
Definition set_lastMove (g : Game) (t : Time.Time) : Game :=
  mkGame (snake g) (dir g) (foods g) (grow g) (gameOver g) t
         (score g) (lives g) (nextFoodTime g).
Definition set_score (g : Game) (n : Z) : Game :=
  mkGame (snake g) (dir g) (foods g) (grow g) (gameOver g) (lastMove g)
         n (lives g) (nextFoodTime g).
Definition set_lives (g : Game) (n : Z) : Game :=
  mkGame (snake g) (dir g) (foods g) (grow g) (gameOver g) (lastMove g)
         (score g) n (nextFoodTime g).
Definition set_nextFoodTime (g : Game) (t : Time.Time) : Game :=
  mkGame (snake g) (dir g) (foods g) (grow g) (gameOver g) (lastMove g)
         (score g) (lives g) t.

(* ------------------------------------------------------------------ *)
(** ** The environment of one [Update] call *)

(** [ebiten.IsKeyPressed] for the five keys the game polls. *)
Record Keys : Type := mkKeys {
  ArrowUp : bool;
  ArrowDown : bool;
  ArrowLeft : bool;
  ArrowRight : bool;
  Space : bool
}.

(** One field per [time.Now()] call site, in program order, and the raw
    pairs behind each [(rand.Intn(w), rand.Intn(h))] of [spawnFood]. *)
Record Env : Type := mkEnv {
  keys : Keys;
  tSince : Time.Time;      (* read by [time.Since(g.lastMove)]            *)
  tMove : Time.Time;       (* [g.lastMove = time.Now()] in [Update]       *)
  tInitMove : Time.Time;   (* [g.lastMove = time.Now()] in [init]         *)
  tInitFood : Time.Time;   (* [g.nextFoodTime = time.Now()] in [init]     *)
  tNow : Time.Time;        (* [now := time.Now()] in [Update]             *)
  tSpawn : Time.Time;      (* [Spawned: time.Now()] in [spawnFood]        *)
  draws : list (Z * Z)
}.

(** [rand.Intn(n)] for [n > 0]: some value of [[0, n)]; every such value is
    the image of a raw value. *)
Definition Intn (n raw : Z) : Z := raw mod n.

Inductive outcome : Type :=
| Ok (g : Game)
| Panic
| Spinning.

(* ------------------------------------------------------------------ *)
(** ** [Game.init] *)

Definition initSnake : list Point :=
  map (fun i : nat =>
         mkPoint (screenWidth / gridSize / 2 - Z.of_nat i)
                 (screenHeight / gridSize / 2))
      (seq 0 initialLen).

Definition init (e : Env) (g : Game) : Game :=
  {| snake := initSnake;
     dir := mkPoint 1 0;
     foods := [];
     grow := false;
     gameOver := false;
     lastMove := tInitMove e;
     score := score g;
     lives := lives g;
     nextFoodTime := tInitFood e |}.

(* ------------------------------------------------------------------ *)
(** ** [Game.spawnFood] *)

(** The two scans of the loop body: [pos] is on the snake or on a food. *)
Definition overlap (g : Game) (pos : Point) : bool :=
  existsb (fun s => Point_eqb s pos) (snake g)
  || existsb (fun f => Point_eqb (Pos f) pos) (foods g).

Definition drawCell (d : Z * Z) : Point :=
  mkPoint (Intn (screenWidth / gridSize) (fst d))
          (Intn (screenHeight / gridSize) (snd d)).

(** The [for { ... }] loop, one iteration per draw. *)
Fixpoint spawnFood (ds : list (Z * Z)) (t : Time.Time) (g : Game) : outcome :=
  match ds with
  | [] => Spinning
  | d :: rest =>
      let pos := drawCell d in
      if overlap g pos then spawnFood rest t g
      else Ok (set_foods g
                 (foods g ++ [mkFood pos t (4 * Time.Second)]))
  end.

(* ------------------------------------------------------------------ *)
(** ** [Game.Update] *)

(** Lines 68-77: the arrow keys, tested in the order Up, Down, Left, Right. *)
Definition directionInput (k : Keys) (g : Game) : Game :=
  if ArrowUp k && negb (Y (dir g) =? 1) then set_dir g (mkPoint 0 (-1))
  else if ArrowDown k && negb (Y (dir g) =? -1) then set_dir g (mkPoint 0 1)
  else if ArrowLeft k && negb (X (dir g) =? 1) then set_dir g (mkPoint (-1) 0)
  else if ArrowRight k && negb (X (dir g) =? -1) then set_dir g (mkPoint 1 0)
  else g.

(** Line 80: [time.Since(g.lastMove) < 100*time.Millisecond] is false. *)
Definition due (e : Env) (g : Game) : bool :=
  negb (Time.Since (tSince e) (lastMove g) <? 100 * Time.Millisecond).

(** Line 86. *)
Definition stepFrom (head d : Point) : Point :=
  mkPoint (GoInt.add (X head) (X d)) (GoInt.add (Y head) (Y d)).

(** Line 89. *)
Definition hitsWall (p : Point) : bool :=
  (X p <? 0) || (Y p <? 0)
  || (X p >=? screenWidth / gridSize) || (Y p >=? screenHeight / gridSize).

(** Lines 99-109: the scan of the whole snake for [newHead]. *)
Definition hitsSelf (p : Point) (s : list Point) : bool :=
  existsb (fun c => Point_eqb c p) s.

(** The body shared by both collision branches. *)
Definition loseLife (e : Env) (g : Game) : Game :=
  let g1 := set_lives g (GoInt.sub (lives g) 1) in
  if lives g1 >? 0 then init e g1 else set_gameOver g1 true.

(** Lines 114-120: index of the first food lying on [p]; [None] is the
    source's [-1]. *)
Fixpoint findFood (p : Point) (fs : list Food) : option nat :=
  match fs with
  | [] => None
  | f :: rest =>
      if Point_eqb p (Pos f) then Some O
      else option_map S (findFood p rest)
  end.

(** [append(l[:i], l[i+1:]...)]. *)
Definition removeAt {A : Type} (i : nat) (l : list A) : list A :=
  firstn i l ++ skipn (S i) l.

(** Lines 121-126. *)
Definition eatFood (newHead : Point) (g : Game) : Game :=
  match findFood newHead (foods g) with
  | Some i =>
      set_foods
        (set_score (set_grow g true) (GoInt.add (score g) 10))
        (removeAt i (foods g))
  | None => g
  end.

(** Lines 127-131. *)
Definition trimTail (g : Game) : Game :=
  if negb (grow g) then set_snake g (removelast (snake g))
  else set_grow g false.

(** Lines 135-141. *)
Definition fresh (now : Time.Time) (f : Food) : bool :=
  Time.Sub now (Spawned f) <? Lifetime f.

Definition expireFood (now : Time.Time) (g : Game) : Game :=
  set_foods g (filter (fresh now) (foods g)).

(** Line 145, the gate of a spawn once the count is below the cap. *)
Definition spawnGate (now : Time.Time) (g : Game) : bool :=
  Time.IsZero (nextFoodTime g) || Time.After now (nextFoodTime g).

(** Lines 144-153. *)
Definition foodSpawnLogic (now t : Time.Time) (ds : list (Z * Z)) (g : Game)
  : outcome :=
  if (length (foods g) <? foodCap)%nat then
    if spawnGate now g then
      match spawnFood ds t g with
      | Ok g1 =>
          Ok (set_nextFoodTime g1
                (if (length (foods g1) <? foodCap)%nat then now
                 else Time.Add now (1 * Time.Second)))
      | r => r
      end
    else Ok g
  else Ok g.

(** Lines 111-141: the move, the meal, the tail and the expiry. *)
Definition settle (e : Env) (newHead : Point) (g : Game) : Game :=
  let g1 := set_snake g (newHead :: snake g) in
  let g2 := eatFood newHead g1 in
  let g3 := trimTail g2 in
  expireFood (tNow e) g3.

(** Lines 111-155: what a due step does once no collision was found. *)
Definition advance (e : Env) (newHead : Point) (g : Game) : outcome :=
  foodSpawnLogic (tNow e) (tSpawn e) (draws e) (settle e newHead g).

(** Lines 79-155. *)
Definition tick (e : Env) (g : Game) : outcome :=
  if negb (due e g) then Ok g
  else
    let g0 := set_lastMove g (tMove e) in
    match snake g0 with
    | [] => Panic
    | head :: _ =>
        let newHead := stepFrom head (dir g0) in
        if hitsWall newHead then Ok (loseLife e g0)
        else if hitsSelf newHead (snake g0) then Ok (loseLife e g0)
        else advance e newHead g0
    end.

Definition Update (e : Env) (g : Game) : outcome :=
  if gameOver g then
    Ok (if Space (keys e) then init e (set_score (set_lives g 3) 0) else g)
  else tick e (directionInput (keys e) g).

(* ------------------------------------------------------------------ *)
(** ** [main]: the first state, and the states a run can reach *)

(** [&Game{}]: every field at its zero value. *)
Definition zeroGame : Game :=
  mkGame [] (mkPoint 0 0) [] false false 0 0 0 0.

Definition newGame (e : Env) : Game :=
  init e (set_score (set_lives zeroGame 3) 0).

Inductive reachable : Game -> Prop :=
| reach_main : forall e, reachable (newGame e)
| reach_Update : forall e g g',
    reachable g -> Update e g = Ok g' -> reachable g'.

(* ------------------------------------------------------------------ *)
(** ** Vocabulary of the properties *)

Inductive Heading : Type := Up | Down | Left | Right.

Definition delta (h : Heading) : Point :=
  match h with
  | Up => mkPoint 0 (-1)
  | Down => mkPoint 0 1
  | Left => mkPoint (-1) 0
  | Right => mkPoint 1 0
  end.

Definition opposite (h : Heading) : Heading :=
  match h with
  | Up => Down
  | Down => Up
  | Left => Right
  | Right => Left
  end.

Definition noKeys : Keys := mkKeys false false false false false.

(** The input collaborator holding exactly the arrow key of [h]. *)
Definition press (h : Heading) : Keys :=
  match h with
  | Up => mkKeys true false false false false
  | Down => mkKeys false true false false false
  | Left => mkKeys false false true false false
  | Right => mkKeys false false false true false
  end.

Definition inGrid (p : Point) : Prop :=
  0 <= X p < gridW /\ 0 <= Y p < gridH.

(** The cell the head would move to, [None] for a snake without cells. *)
Definition candidate (g : Game) : option Point :=
  match snake g with
  | [] => None
  | head :: _ => Some (stepFrom head (dir g))
  end.

(** The candidate lies outside the grid or on a cell of the snake. *)
Definition collides (g : Game) : bool :=
  match candidate g with
  | None => false
  | Some p => hitsWall p || hitsSelf p (snake g)
  end.

(** A cell [spawnFood] accepts in state [g]. *)
Definition freeCell (g : Game) (p : Point) : Prop :=
  ~ In p (snake g) /\ ~ In p (map Pos (foods g)).

(** Some draw of [ds] lands on a free cell. *)
Definition offersFree (g : Game) (ds : list (Z * Z)) : Prop :=
  Exists (fun d => freeCell g (drawCell d)) ds.

(** The heading the step of this call uses, and whether that step hits. *)
Definition steered (e : Env) (g : Game) : Game :=
  directionInput (keys e) g.

(** What every call preserves of the snake: distinct cells, the initial
    length at least, and a grow flag that is down between calls. *)
Definition snakeSound (g : Game) : Prop :=
  NoDup (snake g) /\ (initialLen <= length (snake g))%nat /\ grow g = false.

(** What every call preserves of the food set: at most [foodCap] items, on
    pairwise distinct cells, all of them cells of the grid. *)
Definition foodSound (g : Game) : Prop :=
  (length (foods g) <= foodCap)%nat
  /\ NoDup (map Pos (foods g))
  /\ Forall (fun f => inGrid (Pos f)) (foods g).

(** What every call preserves of the lives: between 0 and the 3 of a new
    session, positive while Playing. *)
Definition livesSound (g : Game) : Prop :=
  0 <= lives g <= 3 /\ (gameOver g = false -> 1 <= lives g).

(** The condition under which [foodSpawnLogic] enters [spawnFood]. *)
Definition spawnEligible (now : Time.Time) (g : Game) : Prop :=
  (length (foods g) < foodCap)%nat
  /\ (nextFoodTime g = 0 \/ nextFoodTime g < now).

(** One spawn attempt: the [now] of the step, the clock reading taken by
    [spawnFood], and the draws at its disposal. *)
Record Attempt : Type := mkAttempt {
  atNow : Time.Time;
  atSpawn : Time.Time;
  atDraws : list (Z * Z)
}.

Definition attempt (a : Attempt) (g : Game) : outcome :=
  foodSpawnLogic (atNow a) (atSpawn a) (atDraws a) g.

(** Successive runs of the spawn logic, as successive due steps make them. *)
Fixpoint spawnRun (l : list Attempt) (g : Game) : outcome :=
  match l with
  | [] => Ok g
  | a :: rest =>
      match attempt a g with
      | Ok g1 => spawnRun rest g1
      | r => r
      end
  end.

(** Each attempt of [l] is given draws that offer a cell free in the state
    it starts from. *)
Fixpoint wellFed (l : list Attempt) (g : Game) : Prop :=
  match l with
  | [] => True
  | a :: rest =>
      offersFree g (atDraws a)
      /\ forall g1, attempt a g = Ok g1 -> wellFed rest g1
  end.

(* ------------------------------------------------------------------ *)
(** ** Sample environments and states *)

(** No key held, every clock reading equal to [t]. *)
Definition quietAt (t : Time.Time) (ds : list (Z * Z)) : Env :=
  mkEnv noKeys t t t t t t ds.

Definition startEnv : Env := quietAt (1 * Time.Second) [].

Definition startGame : Game := newGame startEnv.

(** The state one quiet due step after the start, with its first food on
    cell (0,0). *)
Definition secondGame : Game :=
  match Update (quietAt (2 * Time.Second) [(0, 0)]) startGame with
  | Ok g => g
  | _ => startGame
  end.

(** A run of calls, one environment each; it stops at the first call that
    does not return a state. *)
Fixpoint play (es : list Env) (g : Game) : Game :=
  match es with
  | [] => g
  | e :: rest =>
      match Update e g with
      | Ok g' => play rest g'
      | _ => g
      end
  end.

(** Five quiet steps from the start, 100 ms apart: four spawns, the fourth
    on (11,5), right in the snake's way, and the meal of that fourth item
    in the fifth step. *)
Definition fillAndEat : list Env :=
  [ quietAt (1100 * Time.Millisecond) [(0, 0)];
    quietAt (1200 * Time.Millisecond) [(1, 0)];
    quietAt (1300 * Time.Millisecond) [(2, 0)];
    quietAt (1400 * Time.Millisecond) [(11, 5)];
    quietAt (1500 * Time.Millisecond) [(3, 0)] ].

Definition afterMeal : Game := play fillAndEat startGame.

(** Six quiet steps, 100 ms apart, after a (re)start at [t0] ms: the snake
    runs from the middle of the board to its right edge while four foods
    appear on the top row. *)
Definition ride (t0 : Z) : list Env :=
  map (fun i => quietAt ((t0 + 100 * i) * Time.Millisecond) [(i, 0)])
      [1; 2; 3; 4; 5; 6].

Definition quietAtMs (ms : Z) : Env := quietAt (ms * Time.Millisecond) [(0, 0)].

(** At the right edge with 3 lives, then with 2 after a crash at 1.7 s,
    then with 1 after a crash at 2.4 s. *)
Definition firstLife : Game := play (ride 1000) startGame.
Definition secondLife : Game := play (quietAtMs 1700 :: ride 1700) firstLife.
Definition lastLife : Game := play (quietAtMs 2400 :: ride 2400) secondLife.

(** The default snake on an empty board, no deadline set. *)
Definition bareBoard : Game :=
  mkGame initSnake (mkPoint 1 0) [] false false 0 0 3 0.

(** The attempt of instant [ms] milliseconds with the one draw [d]. *)
Definition tryAt (ms : Z) (d : Z * Z) : Attempt :=
  mkAttempt (ms * Time.Millisecond) (ms * Time.Millisecond) [d].

Definition appleAhead : Food :=
  mkFood (mkPoint 7 5) (1 * Time.Second) (4 * Time.Second).

(** The session once the last life is lost, in a crash at 7.4 s. *)
Definition lostGame : Game := play [quietAtMs 7400] lastLife.

(** The oldest food of [lastLife]. *)
Definition oldApple : Food :=
  mkFood (mkPoint 1 0) (2500 * Time.Millisecond) (4 * Time.Second).

(* ------------------------------------------------------------------ *)
(** ** [Game.Layout] and the integer part of [Game.Draw] *)

Definition Layout (outsideWidth outsideHeight : Z) : Z * Z :=
  (screenWidth, screenHeight).

(** [p.X*gridSize, p.Y*gridSize]: the pixel at which the tile of cell [p] is
    put, for the snake (lines 178 and 222) and for the food (line 240). *)
Definition tileOrigin (p : Point) : Z * Z :=
  (GoInt.wrap (X p * gridSize), GoInt.wrap (Y p * gridSize)).

(** [Duration.Milliseconds]: Go's integer division truncates. *)
Definition Milliseconds (d : Time.Duration) : Z := Z.quot d 1000000.

(** Lines 231-237: whether a food is shown in the frame drawn at [now]. *)
Definition foodVisible (now : Time.Time) (food : Food) : bool :=
  let elapsed := Time.Sub now (Spawned food) in
  if GoInt.sub (Lifetime food) elapsed <? Time.Second then
    Z.rem (Z.quot (Milliseconds elapsed) 100) 2 =? 0
  else true.

(** Lines 230-243, with the food image loaded as [main] loads it: the
    origins of the food tiles drawn in the frame of [now]. *)
Definition drawnFoods (now : Time.Time) (g : Game) : list (Z * Z) :=
  map (fun food => tileOrigin (Pos food))
      (filter (foodVisible now) (foods g)).

(* ------------------------------------------------------------------ *)
(** ** [itoa] *)

(** [byte('0' + i%10)]. *)
Definition digitByte (i : Z) : ascii :=
  ascii_of_N (Z.to_N ((48 + Z.rem i 10) mod 256)).

(** Lines 311-315.  [bp] is the index of the first byte written so far in
    the 20-byte buffer and [out] the bytes [b[bp:]]; writing below index 0
    is a run-time panic, [None]. *)
Fixpoint itoaLoop (bp : nat) (i : Z) (out : list ascii)
  : option (nat * list ascii) :=
  if i >? 0 then
    match bp with
    | O => None
    | S bp' => itoaLoop bp' (Z.quot i 10) (digitByte i :: out)
    end
  else Some (bp, out).

Definition itoa (i : Z) : option (list ascii) :=
  if i =? 0 then Some ["0"%char]
  else
    let neg := i <? 0 in
    let i := if neg then GoInt.wrap (- i) else i in
    match itoaLoop 20 i [] with
    | None => None
    | Some (bp, out) =>
        if neg then
          match bp with
          | O => None
          | S _ => Some ("-"%char :: out)
          end
        else Some out
    end.

(* ------------------------------------------------------------------ *)
(** ** Vocabulary of the further properties *)

(** The integer a string of decimal digits denotes, read from the left
    starting from [v]; [None] if a byte is not a digit. *)
Fixpoint readDigits (v : Z) (s : list ascii) : option Z :=
  match s with
  | [] => Some v
  | c :: rest =>
      let n := Z.of_N (N_of_ascii c) in
      if (48 <=? n) && (n <=? 57) then readDigits (10 * v + (n - 48)) rest
      else None
  end.

(** The integer a decimal numeral denotes: digits, after an optional minus
    sign, at least one of them. *)
Definition readInt (s : list ascii) : option Z :=
  match s with
  | [] => None
  | c :: rest =>
      if Ascii.eqb c "-" then
        match rest with
        | [] => None
        | _ => option_map Z.opp (readDigits 0 rest)
        end
      else readDigits 0 s
  end.

(** Two cells that share a side. *)
Definition adjacent (a b : Point) : Prop :=
  Z.abs (X a - X b) + Z.abs (Y a - Y b) = 1.

(** Each cell of the list shares a side with the next one. *)
Fixpoint linked (s : list Point) : Prop :=
  match s with
  | a :: (b :: _) as rest => adjacent a b /\ linked rest
  | _ => True
  end.

(** The snake is a path of the grid and the heading a unit step. *)
Definition boardSound (g : Game) : Prop :=
  Forall inGrid (snake g)
  /\ (exists h, dir g = delta h)
  /\ linked (snake g).

(** No food under the snake, and every food with the lifetime of 4 s. *)
Definition pantrySound (g : Game) : Prop :=
  (forall f, In f (foods g) -> ~ In (Pos f) (snake g))
  /\ (forall f, In f (foods g) -> Lifetime f = 4 * Time.Second).

(** The [k]-th cell of the grid, column by column. *)
Definition cellOf (k : nat) : Point :=
  mkPoint (Z.of_nat (k / 10)) (Z.of_nat (k mod 10)).

(** The raw draw that [drawCell] maps to [p], for a cell of the grid. *)
Definition drawFor (p : Point) : Z * Z := (X p, Y p).

Definition withKeys (k : Keys) (e : Env) : Env :=
  mkEnv k (tSince e) (tMove e) (tInitMove e) (tInitFood e) (tNow e)
        (tSpawn e) (draws e).

Definition withDraws (ds : list (Z * Z)) (e : Env) : Env :=
  mkEnv (keys e) (tSince e) (tMove e) (tInitMove e) (tInitFood e) (tNow e)
        (tSpawn e) ds.

(** A board whose every cell is under the snake. *)
Definition fullBoard : Game :=
  mkGame (map cellOf (seq 0 130)) (mkPoint 1 0) [] false false 0 0 3 0.

(* ------------------------------------------------------------------ *)
(** ** Elementary facts *)

Lemma wrap_id (z : Z) : GoInt.in_range z -> GoInt.wrap z = z.
Proof.
  unfold GoInt.in_range, GoInt.min_int, GoInt.max_int, GoInt.wrap.
  intros H. rewrite Z.mod_small; lia.
Qed.

Lemma Point_eqb_eq (p q : Point) : Point_eqb p q = true <-> p = q.
Proof.
  destruct p as [px py], q as [qx qy]; unfold Point_eqb; simpl.
  rewrite andb_true_iff, !Z.eqb_eq. split.
  - intros [-> ->]. reflexivity.
  - intros E. injection E. auto.
Qed.

Lemma Point_eqb_refl (p : Point) : Point_eqb p p = true.
Proof. apply Point_eqb_eq. reflexivity. Qed.

Lemma Point_eqb_neq (p q : Point) : Point_eqb p q = false <-> p <> q.
Proof.
  rewrite <- Point_eqb_eq. destruct (Point_eqb p q); split; congruence.
Qed.

Lemma hitsSelf_In (p : Point) (s : list Point) :
  hitsSelf p s = true <-> In p s.
Proof.
  unfold hitsSelf. rewrite existsb_exists. split.
  - intros [c [Hc E]]. apply Point_eqb_eq in E. subst c. exact Hc.
  - intros H. exists p. split; [exact H | apply Point_eqb_refl].
Qed.

Lemma hitsSelf_notIn (p : Point) (s : list Point) :
  hitsSelf p s = false <-> ~ In p s.
Proof.
  rewrite <- hitsSelf_In. destruct (hitsSelf p s); split; congruence.
Qed.

Lemma onFood_In (p : Point) (fs : list Food) :
  existsb (fun f => Point_eqb (Pos f) p) fs = true <-> In p (map Pos fs).
Proof.
  rewrite existsb_exists, in_map_iff. split.
  - intros [f [Hf E]]. apply Point_eqb_eq in E. exists f. auto.
  - intros [f [E Hf]]. exists f. split; [exact Hf | now apply Point_eqb_eq].
Qed.

Lemma overlap_free (g : Game) (p : Point) :
  overlap g p = false <-> freeCell g p.
Proof.
  unfold overlap, freeCell. rewrite orb_false_iff.
  change (existsb (fun s => Point_eqb s p) (snake g)) with (hitsSelf p (snake g)).
  rewrite hitsSelf_notIn, <- onFood_In.
  destruct (existsb (fun f => Point_eqb (Pos f) p) (foods g));
    intuition congruence.
Qed.

Lemma hitsWall_inGrid (p : Point) : hitsWall p = false <-> inGrid p.
Proof.
  unfold hitsWall, inGrid, gridW, gridH.
  rewrite !orb_false_iff, !Z.ltb_ge, !Z.geb_leb, !Z.leb_gt. lia.
Qed.

Lemma drawCell_inGrid (d : Z * Z) : inGrid (drawCell d).
Proof.
  unfold inGrid, drawCell, Intn, gridW, gridH; simpl.
  split; apply Z.mod_pos_bound; reflexivity.
Qed.

(** The saturation of [Time.Sub] is invisible to a comparison against a
    bound that is itself a [Duration] above the least one. *)
Lemma Sub_ltb (t u c : Z) :
  Time.minDuration < c <= Time.maxDuration ->
  (Time.Sub t u <? c) = (t - u <? c).
Proof.
  intros Hc. unfold Time.Sub.
  destruct (Z.ltb_spec (t - u) Time.minDuration) as [Hlo|Hlo].
  - destruct (Z.ltb_spec Time.minDuration c), (Z.ltb_spec (t - u) c);
      try reflexivity; lia.
  - destruct (Z.ltb_spec Time.maxDuration (t - u)) as [Hhi|Hhi];
      [|reflexivity].
    destruct (Z.ltb_spec Time.maxDuration c), (Z.ltb_spec (t - u) c);
      try reflexivity; lia.
Qed.

Lemma due_elapsed (e : Env) (g : Game) :
  due e g = true <-> 100 * Time.Millisecond <= tSince e - lastMove g.
Proof.
  unfold due, Time.Since. rewrite Sub_ltb.
  - rewrite negb_true_iff, Z.ltb_ge. reflexivity.
  - vm_compute. split; [reflexivity | discriminate].
Qed.

Lemma not_due_elapsed (e : Env) (g : Game) :
  due e g = false <-> tSince e - lastMove g < 100 * Time.Millisecond.
Proof.
  pose proof (due_elapsed e g) as [H1 H2].
  destruct (due e g); split; intros H; try discriminate; try reflexivity.
  - specialize (H1 eq_refl). lia.
  - destruct (Z.le_gt_cases (100 * Time.Millisecond) (tSince e - lastMove g))
      as [C|C]; [specialize (H2 C); discriminate | exact C].
Qed.

(* ------------------------------------------------------------------ *)
(** ** [spawnFood] *)

(** What a returning [spawnFood] has done: one item appended, on a cell of
    the grid that carried neither the snake nor a food, stamped with the
    clock reading and the 4 s lifetime. *)
Lemma spawnFood_Ok (ds : list (Z * Z)) (t : Time.Time) (g g' : Game) :
  spawnFood ds t g = Ok g' ->
  exists p, g' = set_foods g (foods g ++ [mkFood p t (4 * Time.Second)])
            /\ freeCell g p /\ inGrid p /\ In p (map drawCell ds).
Proof.
  induction ds as [|d rest IH]; simpl; [discriminate|].
  destruct (overlap g (drawCell d)) eqn:Hov.
  - intros H. destruct (IH H) as [p [E [Hf [Hg Hin]]]].
    exists p. auto.
  - intros H. injection H as <-. exists (drawCell d).
    repeat split; try (apply overlap_free in Hov; apply Hov);
      try apply drawCell_inGrid. now left.
Qed.

Lemma spawnFood_no_panic (ds : list (Z * Z)) (t : Time.Time) (g : Game) :
  spawnFood ds t g <> Panic.
Proof.
  induction ds as [|d rest IH]; simpl; [discriminate|].
  destruct (overlap g (drawCell d)); [exact IH | discriminate].
Qed.

(** The loop returns as soon as the draws offer a free cell. *)
Lemma spawnFood_returns (ds : list (Z * Z)) (t : Time.Time) (g : Game) :
  offersFree g ds -> exists g', spawnFood ds t g = Ok g'.
Proof.
  unfold offersFree. induction 1 as [d rest Hd | d rest _ IH]; simpl.
  - apply overlap_free in Hd. rewrite Hd. eauto.
  - destruct (overlap g (drawCell d)); eauto.
Qed.

(** ... and only then. *)
Lemma spawnFood_spins (ds : list (Z * Z)) (t : Time.Time) (g : Game) :
  ~ offersFree g ds -> spawnFood ds t g = Spinning.
Proof.
  unfold offersFree. induction ds as [|d rest IH]; simpl; [reflexivity|].
  intros H. destruct (overlap g (drawCell d)) eqn:Hov.
  - apply IH. intros C. apply H. now apply Exists_cons_tl.
  - exfalso. apply H. apply Exists_cons_hd. now apply overlap_free.
Qed.

(* ------------------------------------------------------------------ *)
(** ** Runs *)

Lemma reachable_play (es : list Env) (g : Game) :
  reachable g -> reachable (play es g).
Proof.
  revert g. induction es as [|e rest IH]; intros g Hr; simpl; [exact Hr|].
  destruct (Update e g) as [g'| |] eqn:HU; try exact Hr.
  apply IH. exact (reach_Update e g g' Hr HU).
Qed.

Lemma reachable_afterMeal : reachable afterMeal.
Proof. apply reachable_play. apply reach_main. Qed.

Lemma afterMeal_state :
  afterMeal
  = mkGame [mkPoint 11 5; mkPoint 10 5; mkPoint 9 5; mkPoint 8 5]
           (mkPoint 1 0)
           [mkFood (mkPoint 0 0) (1100 * Time.Millisecond) (4 * Time.Second);
            mkFood (mkPoint 1 0) (1200 * Time.Millisecond) (4 * Time.Second);
            mkFood (mkPoint 2 0) (1300 * Time.Millisecond) (4 * Time.Second)]
           false false (1500 * Time.Millisecond) 10 3
           (2400 * Time.Millisecond).
Proof. vm_compute. reflexivity. Qed.

Lemma reachable_lastLife : reachable lastLife.
Proof. do 3 apply reachable_play. apply reach_main. Qed.

(* ------------------------------------------------------------------ *)
(** ** Heading intents *)

(** C9 (reversal law).  Whatever the current heading [h], an intent for the
    exact opposite of [h] leaves the game, and so its heading, as it was;
    every other intent among Up, Down, Left and Right becomes the
    heading, and nothing else changes. *)
Theorem reversal_law (h k : Heading) (g : Game) :
  dir g = delta h ->
  (k = opposite h -> directionInput (press k) g = g)
  /\ (k <> opposite h -> directionInput (press k) g = set_dir g (delta k)).
Proof.
  intros Hd. unfold directionInput. rewrite Hd. split.
  - intros ->. destruct h; reflexivity.
  - intros Hk. destruct h, k; simpl in *; try reflexivity; congruence.
Qed.

Lemma reversal_law_witness :
  directionInput (press Left) startGame = startGame
  /\ directionInput (press Up) startGame = set_dir startGame (delta Up).
Proof.
  split.
  - apply (reversal_law Right Left); reflexivity.
  - apply (reversal_law Right Up); [reflexivity | discriminate].
Defined.

(* ------------------------------------------------------------------ *)
(** ** Scenario A: eating *)

Lemma initSnake_cells :
  initSnake = [mkPoint 6 5; mkPoint 5 5; mkPoint 4 5].
Proof. reflexivity. Qed.

Lemma grid_is_13_by_10 : gridW = 13 /\ gridH = 10.
Proof. split; reflexivity. Qed.

(** The part of [foodSpawnLogic] that every caller needs: it never panics,
    it returns whenever the draws offer a free cell, and a returned state
    differs from the argument in [foods] and [nextFoodTime] only. *)
Lemma foodSpawnLogic_no_panic now t ds g : foodSpawnLogic now t ds g <> Panic.
Proof.
  unfold foodSpawnLogic.
  destruct (length (foods g) <? foodCap)%nat; [|discriminate].
  destruct (spawnGate now g); [|discriminate].
  pose proof (spawnFood_no_panic ds t g).
  destruct (spawnFood ds t g); congruence.
Qed.

Lemma foodSpawnLogic_returns now t ds g :
  offersFree g ds -> exists g', foodSpawnLogic now t ds g = Ok g'.
Proof.
  intros H. unfold foodSpawnLogic.
  destruct (length (foods g) <? foodCap)%nat; [|eauto].
  destruct (spawnGate now g); [|eauto].
  destruct (spawnFood_returns ds t g H) as [g1 ->]. eauto.
Qed.

Lemma foodSpawnLogic_Ok now t ds g g' :
  foodSpawnLogic now t ds g = Ok g' ->
  g' = g
  \/ (length (foods g) < foodCap)%nat /\ spawnGate now g = true /\
     exists p,
       freeCell g p /\ inGrid p /\
       g' = set_nextFoodTime
              (set_foods g (foods g ++ [mkFood p t (4 * Time.Second)]))
              (if (S (length (foods g)) <? foodCap)%nat then now
               else Time.Add now (1 * Time.Second)).
Proof.
  unfold foodSpawnLogic.
  destruct (Nat.ltb_spec (length (foods g)) foodCap) as [Hlen|Hlen];
    [|intros H; injection H; auto].
  destruct (spawnGate now g); [|intros H; injection H; auto].
  destruct (spawnFood ds t g) as [g1| |] eqn:Hs; try discriminate.
  intros H. injection H as <-. right.
  destruct (spawnFood_Ok _ _ _ _ Hs) as [p [-> [Hf [Hg _]]]].
  repeat split; auto. exists p. repeat split; try apply Hf; try apply Hg.
  simpl. rewrite length_app, Nat.add_comm. reflexivity.
Qed.

(** C1 (scenario A).  The default initial configuration is the snake
    (6,5),(5,5),(4,5) heading Right on the 13 x 10 grid.  Put one food item
    on (7,5) and call [Update] once at least 100 ms after the last move,
    with neither the Up nor the Down key held (so that the heading stays
    Right) and draws that offer a cell off the four cells the snake is about
    to occupy: the call returns, the snake is (7,5),(6,5),(5,5),(4,5), the
    score is 10, and the eaten item has left the food set, which holds no
    item on (7,5) any more. *)
Theorem scenario_A_eat (e0 e : Env) (f : Food) :
  let g := set_foods (newGame e0) [f] in
  Pos f = mkPoint 7 5 ->
  ArrowUp (keys e) = false -> ArrowDown (keys e) = false ->
  100 * Time.Millisecond <= tSince e - lastMove g ->
  Exists (fun d => ~ In (drawCell d)
                        [mkPoint 7 5; mkPoint 6 5; mkPoint 5 5; mkPoint 4 5])
         (draws e) ->
  snake g = [mkPoint 6 5; mkPoint 5 5; mkPoint 4 5]
  /\ dir g = delta Right /\ score g = 0
  /\ exists g',
       Update e g = Ok g'
       /\ snake g' = [mkPoint 7 5; mkPoint 6 5; mkPoint 5 5; mkPoint 4 5]
       /\ score g' = 10
       /\ ~ In f (foods g')
       /\ (forall f', In f' (foods g') -> Pos f' <> mkPoint 7 5).
Proof.
  intros g Hpos Hup Hdown Hdue Hdraws.
  repeat split.
  assert (Hd : due e g = true) by (apply due_elapsed; exact Hdue).
  unfold Update. change (gameOver g) with false. cbv iota.
  assert (Hin : directionInput (keys e) g = g
                \/ directionInput (keys e) g = set_dir g (mkPoint 1 0)).
  { unfold directionInput. rewrite Hup, Hdown. simpl.
    destruct (ArrowLeft (keys e)), (ArrowRight (keys e)); auto. }
  assert (Hsame : set_dir g (mkPoint 1 0) = g) by reflexivity.
  assert (Hg : directionInput (keys e) g = g) by (destruct Hin; congruence).
  rewrite Hg. unfold tick. rewrite Hd. simpl negb. cbv iota.
  change (snake (set_lastMove g (tMove e))) with initSnake.
  rewrite initSnake_cells. cbv iota beta.
  change (stepFrom (mkPoint 6 5) (dir (set_lastMove g (tMove e))))
    with (mkPoint 7 5).
  change (hitsWall (mkPoint 7 5)) with false.
  change (hitsSelf (mkPoint 7 5) [mkPoint 6 5; mkPoint 5 5; mkPoint 4 5])
    with false.
  cbv iota. unfold advance.
  set (g3 := settle e _ _).
  assert (E3 : g3 = mkGame [mkPoint 7 5; mkPoint 6 5; mkPoint 5 5; mkPoint 4 5]
                           (mkPoint 1 0) [] false false (tMove e) 10 3
                           (tInitFood e0)).
  { subst g3. unfold settle, eatFood. simpl foods. simpl findFood.
    rewrite Hpos. simpl. reflexivity. }
  rewrite E3. clear E3 g3.
  match goal with |- context [foodSpawnLogic ?n ?t ?ds ?s] =>
    destruct (foodSpawnLogic_returns n t ds s) as [g' Hg'];
      [| exists g'; split; [exact Hg'|];
         destruct (foodSpawnLogic_Ok _ _ _ _ _ Hg') as [->|[_ [_ [p [Hf [_ ->]]]]]] ]
  end.
  - unfold offersFree. eapply Exists_impl; [|exact Hdraws].
    intros d Hd'. split; simpl; [exact Hd' | tauto].
  - simpl. repeat split; auto.
  - simpl. destruct Hf as [Hs _]. simpl in Hs.
    assert (Hne : Pos f <> p).
    { rewrite Hpos. intros <-. apply Hs. now left. }
    repeat split.
    + intros [E|[]]. apply Hne. rewrite <- E. reflexivity.
    + intros f' [<-|[]]. simpl. intros ->. apply Hs. now left.
Qed.

Lemma scenario_A_eat_witness :
  exists g',
    Update (quietAt (2 * Time.Second) [(0, 0)])
           (set_foods startGame [appleAhead]) = Ok g'
    /\ snake g' = [mkPoint 7 5; mkPoint 6 5; mkPoint 5 5; mkPoint 4 5]
    /\ score g' = 10
    /\ ~ In appleAhead (foods g').
Proof.
  destruct (scenario_A_eat startEnv (quietAt (2 * Time.Second) [(0, 0)])
              appleAhead) as [_ [_ [_ [g' [H1 [H2 [H3 [H4 _]]]]]]]].
  - reflexivity.
  - reflexivity.
  - reflexivity.
  - vm_compute. discriminate.
  - apply Exists_cons_hd. vm_compute. intuition discriminate.
  - exists g'. auto.
Defined.

(* ------------------------------------------------------------------ *)
(** ** The shape of one [Update] call *)

Lemma directionInput_dir (k : Keys) (g : Game) :
  directionInput k g = set_dir g (dir (directionInput k g)).
Proof.
  destruct g. unfold directionInput.
  repeat match goal with |- context [if ?b then _ else _] =>
    destruct b end; reflexivity.
Qed.

Lemma steered_fields (e : Env) (g : Game) :
  snake (steered e g) = snake g /\ foods (steered e g) = foods g
  /\ grow (steered e g) = grow g /\ gameOver (steered e g) = gameOver g
  /\ lastMove (steered e g) = lastMove g /\ score (steered e g) = score g
  /\ lives (steered e g) = lives g
  /\ nextFoodTime (steered e g) = nextFoodTime g.
Proof.
  unfold steered. rewrite directionInput_dir. repeat split.
Qed.

Lemma due_steered (e : Env) (g : Game) : due e (steered e g) = due e g.
Proof.
  unfold due. destruct (steered_fields e g) as [_ [_ [_ [_ [-> _]]]]].
  reflexivity.
Qed.

Lemma Update_gameOver (e : Env) (g : Game) :
  gameOver g = true ->
  Update e g
  = Ok (if Space (keys e) then init e (set_score (set_lives g 3) 0) else g).
Proof. unfold Update. intros ->. reflexivity. Qed.

Lemma Update_not_due (e : Env) (g : Game) :
  gameOver g = false -> due e g = false -> Update e g = Ok (steered e g).
Proof.
  unfold Update. intros -> Hd. unfold tick.
  fold (steered e g). rewrite due_steered, Hd. reflexivity.
Qed.

Lemma Update_collision (e : Env) (g : Game) :
  gameOver g = false -> due e g = true -> collides (steered e g) = true ->
  Update e g = Ok (loseLife e (set_lastMove (steered e g) (tMove e))).
Proof.
  unfold Update. intros -> Hd Hc. unfold tick.
  fold (steered e g). rewrite due_steered, Hd. simpl negb. cbv iota.
  unfold collides, candidate in Hc.
  change (snake (set_lastMove (steered e g) (tMove e)))
    with (snake (steered e g)).
  change (dir (set_lastMove (steered e g) (tMove e)))
    with (dir (steered e g)).
  destruct (snake (steered e g)) as [|head tl]; [discriminate|].
  destruct (hitsWall (stepFrom head (dir (steered e g)))); [reflexivity|].
  cbn [orb] in Hc. rewrite Hc. reflexivity.
Qed.

Lemma Update_advance (e : Env) (g : Game) (p : Point) :
  gameOver g = false -> due e g = true ->
  candidate (steered e g) = Some p -> collides (steered e g) = false ->
  Update e g = advance e p (set_lastMove (steered e g) (tMove e)).
Proof.
  unfold Update. intros -> Hd Hp Hc. unfold tick.
  fold (steered e g). rewrite due_steered, Hd. simpl negb. cbv iota.
  unfold collides in Hc. rewrite Hp in Hc. unfold candidate in Hp.
  change (snake (set_lastMove (steered e g) (tMove e)))
    with (snake (steered e g)).
  change (dir (set_lastMove (steered e g) (tMove e)))
    with (dir (steered e g)).
  destruct (snake (steered e g)) as [|head tl]; [discriminate|].
  injection Hp as Hp. rewrite Hp.
  apply orb_false_iff in Hc. destruct Hc as [-> ->]. reflexivity.
Qed.

Lemma Update_panics (e : Env) (g : Game) :
  gameOver g = false -> due e g = true -> snake g = [] ->
  Update e g = Panic.
Proof.
  unfold Update. intros -> Hd Hs. unfold tick.
  fold (steered e g). rewrite due_steered, Hd. simpl negb. cbv iota.
  change (snake (set_lastMove (steered e g) (tMove e)))
    with (snake (steered e g)).
  destruct (steered_fields e g) as [-> _]. rewrite Hs. reflexivity.
Qed.

(** The candidate exists exactly for a snake with a head. *)
Lemma candidate_some (g : Game) :
  snake g <> [] -> exists p, candidate g = Some p.
Proof.
  unfold candidate. destruct (snake g); [congruence | eauto].
Qed.

Lemma collides_iff (g : Game) :
  collides g = true
  <-> exists p, candidate g = Some p /\ (~ inGrid p \/ In p (snake g)).
Proof.
  unfold collides. destruct (candidate g) as [p|].
  - rewrite orb_true_iff, hitsSelf_In. split.
    + intros [H|H]; exists p; split; auto.
      left. rewrite <- hitsWall_inGrid. congruence.
    + intros [q [E [H|H]]]; injection E as <-; auto.
      left. rewrite <- hitsWall_inGrid in H.
      destruct (hitsWall p); congruence.
  - split; [discriminate | intros [p [E _]]; discriminate].
Qed.

(* ------------------------------------------------------------------ *)
(** ** Collisions *)

(** C2 (collision law, as the code has it).  Take a Playing state whose
    lives counter is a Go [int] above the least one, and a due step whose
    candidate head lies on a cell of the snake or outside the 13 x 10 grid.
    The step returns; lives go down by exactly 1 and the score is kept.  If
    lives remain, the session is reset: phase Playing, default snake and
    heading, empty food set, timers re-read from the clock.  Otherwise the
    phase is GameOver and snake, food set, heading and spawn deadline are
    what they were. *)
Theorem collision_law (e : Env) (g : Game) (p : Point) :
  gameOver g = false ->
  GoInt.min_int < lives g <= GoInt.max_int ->
  due e g = true ->
  candidate (steered e g) = Some p ->
  In p (snake g) \/ ~ inGrid p ->
  exists g',
    Update e g = Ok g'
    /\ lives g' = lives g - 1
    /\ score g' = score g
    /\ (0 < lives g - 1 ->
        gameOver g' = false /\ snake g' = initSnake /\ dir g' = delta Right
        /\ foods g' = [] /\ grow g' = false
        /\ lastMove g' = tInitMove e /\ nextFoodTime g' = tInitFood e)
    /\ (lives g - 1 <= 0 ->
        gameOver g' = true /\ foods g' = foods g /\ snake g' = snake g
        /\ dir g' = dir (steered e g) /\ nextFoodTime g' = nextFoodTime g).
Proof.
  intros Hplay Hl Hd Hp Hhit.
  destruct (steered_fields e g)
    as [Hsn [Hfo [Hgr [Hgo [Hlm [Hsc [Hli Hnf]]]]]]].
  assert (Hc : collides (steered e g) = true).
  { apply collides_iff. exists p. split; [exact Hp|].
    rewrite Hsn. tauto. }
  rewrite (Update_collision e g Hplay Hd Hc).
  eexists. split; [reflexivity|].
  unfold loseLife. cbn [lives set_lives set_lastMove].
  rewrite Hli. unfold GoInt.sub.
  rewrite wrap_id by (unfold GoInt.in_range, GoInt.min_int, GoInt.max_int in *; lia).
  destruct (Z.gtb_spec (lives g - 1) 0) as [Hpos|Hpos]; cbn.
  - repeat split; auto; lia.
  - repeat split; auto; lia.
Qed.

Lemma collision_law_witness :
  exists g',
    Update (quietAtMs 7400) lastLife = Ok g'
    /\ lives g' = 0 /\ gameOver g' = true /\ foods g' = foods lastLife.
Proof.
  destruct (collision_law (quietAtMs 7400) lastLife (mkPoint 13 5))
    as [g' [H1 [H2 [_ [_ H3]]]]].
  - vm_compute. reflexivity.
  - vm_compute. split; [reflexivity | discriminate].
  - vm_compute. reflexivity.
  - vm_compute. reflexivity.
  - right. unfold inGrid. vm_compute. intros [[_ H] _]. discriminate.
  - exists g'. destruct H3 as [H3 [H4 _]].
    + vm_compute. discriminate.
    + auto.
Defined.

(** C2 as the specification words it, with the food set untouched by a
    collision step, fails.  [firstLife] is reachable, Playing with 3 lives
    and 4 foods, its head on (12,5) heading Right; the due step collides
    with the wall, and the reset it triggers empties the food set. *)
Lemma collision_reset_clears_food :
  let g := firstLife in
  let e := quietAtMs 1700 in
  reachable g
  /\ gameOver g = false /\ due e g = true
  /\ candidate (steered e g) = Some (mkPoint 13 5)
  /\ ~ inGrid (mkPoint 13 5)
  /\ length (foods g) = 4%nat
  /\ exists g', Update e g = Ok g' /\ lives g = 3 /\ lives g' = 2
                /\ gameOver g' = false /\ foods g' = []
                /\ foods g' <> foods g.
Proof.
  cbv zeta. split; [apply reachable_play, reach_main|].
  split; [vm_compute; reflexivity|].
  split; [vm_compute; reflexivity|].
  split; [vm_compute; reflexivity|].
  split; [vm_compute; intros [[_ H] _]; discriminate|].
  split; [vm_compute; reflexivity|].
  eexists. split; [vm_compute; reflexivity|].
  vm_compute. repeat split. discriminate.
Qed.

(** The four ways in which a call of [Update] returns a state. *)
Lemma Update_Ok_cases (e : Env) (g g' : Game) :
  Update e g = Ok g' ->
  (gameOver g = true
   /\ g' = if Space (keys e) then init e (set_score (set_lives g 3) 0)
           else g)
  \/ (gameOver g = false /\ due e g = false /\ g' = steered e g)
  \/ (gameOver g = false /\ due e g = true
      /\ collides (steered e g) = true
      /\ g' = loseLife e (set_lastMove (steered e g) (tMove e)))
  \/ (gameOver g = false /\ due e g = true
      /\ collides (steered e g) = false
      /\ exists p, candidate (steered e g) = Some p
                   /\ advance e p (set_lastMove (steered e g) (tMove e))
                      = Ok g').
Proof.
  intros HU. destruct (gameOver g) eqn:Hgo.
  - left. rewrite Update_gameOver in HU by exact Hgo.
    injection HU as <-. auto.
  - right. destruct (due e g) eqn:Hd.
    + right. destruct (collides (steered e g)) eqn:Hc.
      * left. rewrite (Update_collision e g Hgo Hd Hc) in HU.
        injection HU as <-. auto.
      * right. destruct (snake g) as [|hd tl] eqn:Hs.
        { rewrite (Update_panics e g Hgo Hd Hs) in HU. discriminate. }
        destruct (candidate_some (steered e g)) as [p Hp].
        { destruct (steered_fields e g) as [-> _]. rewrite Hs. discriminate. }
        rewrite (Update_advance e g p Hgo Hd Hp Hc) in HU. eauto 8.
    + left. rewrite (Update_not_due e g Hgo Hd) in HU.
      injection HU as <-. auto.
Qed.

(** [trimTail] always leaves the grow flag down. *)
Lemma trimTail_grow (g : Game) : grow (trimTail g) = false.
Proof. unfold trimTail. destruct (grow g) eqn:E; cbn; auto. Qed.

(** What [settle] does to each field. *)
Lemma settle_snake (e : Env) (p : Point) (g : Game) :
  grow g = false ->
  snake (settle e p g)
  = match findFood p (foods g) with
    | Some _ => p :: snake g
    | None => removelast (p :: snake g)
    end.
Proof.
  intros Hg. unfold settle, eatFood. cbn [foods set_snake].
  destruct (findFood p (foods g)); unfold trimTail; cbn [grow set_snake set_grow set_score set_foods];
    [|rewrite Hg]; reflexivity.
Qed.

Lemma settle_foods (e : Env) (p : Point) (g : Game) :
  foods (settle e p g)
  = filter (fresh (tNow e))
      match findFood p (foods g) with
      | Some i => removeAt i (foods g)
      | None => foods g
      end.
Proof.
  unfold settle, eatFood. cbn [foods set_snake].
  destruct (findFood p (foods g)); unfold trimTail; cbn;
    destruct (grow g); reflexivity.
Qed.

Lemma settle_frame (e : Env) (p : Point) (g : Game) :
  grow (settle e p g) = false
  /\ gameOver (settle e p g) = gameOver g
  /\ lastMove (settle e p g) = lastMove g
  /\ lives (settle e p g) = lives g
  /\ dir (settle e p g) = dir g
  /\ nextFoodTime (settle e p g) = nextFoodTime g.
Proof.
  unfold settle. split; [apply trimTail_grow|].
  unfold eatFood. cbn [foods set_snake].
  destruct (findFood p (foods g)); unfold trimTail; cbn;
    destruct (grow g); cbn; auto.
Qed.

Lemma settle_score (e : Env) (p : Point) (g : Game) :
  score (settle e p g)
  = match findFood p (foods g) with
    | Some _ => GoInt.add (score g) 10
    | None => score g
    end.
Proof.
  unfold settle, eatFood. cbn [foods set_snake].
  destruct (findFood p (foods g)); unfold trimTail; cbn;
    destruct (grow g); reflexivity.
Qed.

(** A returning [advance] is [settle] followed by at most one spawn. *)
Lemma advance_Ok (e : Env) (p : Point) (g g' : Game) :
  advance e p g = Ok g' ->
  let s := settle e p g in
  g' = s
  \/ (length (foods s) < foodCap)%nat /\ spawnGate (tNow e) s = true /\
     exists q,
       freeCell s q /\ inGrid q /\
       g' = set_nextFoodTime
              (set_foods s
                 (foods s ++ [mkFood q (tSpawn e) (4 * Time.Second)]))
              (if (S (length (foods s)) <? foodCap)%nat then tNow e
               else Time.Add (tNow e) (1 * Time.Second)).
Proof. unfold advance. apply foodSpawnLogic_Ok. Qed.

Lemma advance_frame (e : Env) (p : Point) (g g' : Game) :
  advance e p g = Ok g' ->
  snake g' = snake (settle e p g)
  /\ gameOver g' = gameOver g
  /\ lastMove g' = lastMove g
  /\ lives g' = lives g
  /\ score g' = score (settle e p g)
  /\ grow g' = false
  /\ dir g' = dir g.
Proof.
  intros H. destruct (settle_frame e p g) as [Hgr [Hgo [Hlm [Hli [Hdi _]]]]].
  destruct (advance_Ok _ _ _ _ H) as [->|[_ [_ [q [_ [_ ->]]]]]]; cbn;
    repeat split; auto.
Qed.

(** Termination of a call.  Outside the retry loop of [spawnFood] nothing
    in [Update] loops: a call on a snake with a head returns as soon as the
    draws offer a cell that is free once the snake has moved. *)
Lemma Update_returns (e : Env) (g : Game) :
  snake g <> [] ->
  (forall p, candidate (steered e g) = Some p ->
             offersFree (settle e p (set_lastMove (steered e g) (tMove e)))
                        (draws e)) ->
  exists g', Update e g = Ok g'.
Proof.
  intros Hne Hfree.
  destruct (gameOver g) eqn:Hgo.
  { rewrite Update_gameOver by exact Hgo. eauto. }
  destruct (due e g) eqn:Hd.
  2:{ rewrite (Update_not_due e g Hgo Hd). eauto. }
  destruct (collides (steered e g)) eqn:Hc.
  { rewrite (Update_collision e g Hgo Hd Hc). eauto. }
  destruct (candidate_some (steered e g)) as [p Hp].
  { destruct (steered_fields e g) as [-> _]. exact Hne. }
  rewrite (Update_advance e g p Hgo Hd Hp Hc). unfold advance.
  apply foodSpawnLogic_returns. apply Hfree. exact Hp.
Qed.

(* ------------------------------------------------------------------ *)
(** ** The tick gate *)

(** With no arrow key held, or only the key of a reversal, the heading
    input changes nothing. *)
Lemma steered_noKeys (e : Env) (g : Game) :
  keys e = noKeys -> steered e g = g.
Proof. unfold steered. intros ->. reflexivity. Qed.

(** C8 (step entry point).  [Update] polls the keys itself; the step of the
    specification is the call that carries no intent of its own: no heading
    change accepted ([steered e g = g], as when no arrow key is held) and,
    in phase GameOver, no new session requested.  Such a call is a no-op in
    phase GameOver, and in phase Playing when less than 100 ms have passed
    since the last simulation step; whatever the keys, a Playing call that
    is not due does nothing beyond the heading input.  When a step does
    run, the reference point [lastMove] is a clock reading of that very
    call: the one taken on line 83, or, when the step ends in a reset, the
    later one taken by [init]. *)
Theorem step_gate (e : Env) (g : Game) :
  (gameOver g = true -> Space (keys e) = false -> Update e g = Ok g)
  /\ (gameOver g = false ->
      tSince e - lastMove g < 100 * Time.Millisecond ->
      Update e g = Ok (steered e g)
      /\ (steered e g = g -> Update e g = Ok g))
  /\ (gameOver g = false ->
      100 * Time.Millisecond <= tSince e - lastMove g ->
      forall g', Update e g = Ok g' ->
        (collides (steered e g) = false -> lastMove g' = tMove e)
        /\ (lastMove g' = tMove e \/ lastMove g' = tInitMove e)).
Proof.
  split; [|split].
  - intros Hgo Hsp. rewrite Update_gameOver by exact Hgo.
    rewrite Hsp. reflexivity.
  - intros Hgo Hel. apply not_due_elapsed in Hel.
    rewrite (Update_not_due e g Hgo Hel). split; [reflexivity|].
    intros ->. reflexivity.
  - intros Hgo Hel g' HU. apply due_elapsed in Hel.
    destruct (collides (steered e g)) eqn:Hc.
    + rewrite (Update_collision e g Hgo Hel Hc) in HU.
      injection HU as <-. split; [discriminate|].
      unfold loseLife.
      match goal with |- context [if ?b then _ else _] => destruct b end;
        cbn; auto.
    + destruct (snake (steered e g)) as [|hd tl] eqn:Hs.
      * destruct (steered_fields e g) as [Hsn _]. rewrite Hs in Hsn.
        rewrite (Update_panics e g Hgo Hel (eq_sym Hsn)) in HU.
        discriminate.
      * assert (Hp : candidate (steered e g)
                     = Some (stepFrom hd (dir (steered e g)))).
        { unfold candidate. rewrite Hs. reflexivity. }
        rewrite (Update_advance e g _ Hgo Hel Hp Hc) in HU.
        assert (lastMove g' = tMove e).
        { destruct (advance_frame _ _ _ _ HU) as [_ [_ [E _]]].
          exact E. }
        auto.
Qed.

Lemma step_gate_witness :
  Update (quietAt (9 * Time.Second) [(0, 0)]) lostGame = Ok lostGame
  /\ Update (quietAt (1 * Time.Second + 99 * Time.Millisecond) [(0, 0)])
            startGame
     = Ok startGame.
Proof.
  split.
  - apply (proj1 (step_gate (quietAt (9 * Time.Second) [(0, 0)]) lostGame));
      reflexivity.
  - apply (proj1 (proj2 (step_gate
                    (quietAt (1 * Time.Second + 99 * Time.Millisecond)
                             [(0, 0)]) startGame))).
    + reflexivity.
    + reflexivity.
    + reflexivity.
Defined.

(* ------------------------------------------------------------------ *)
(** ** Lists: dropping the last cell, dropping one index *)

Lemma removelast_In {A : Type} (x : A) (l : list A) :
  In x (removelast l) -> In x l.
Proof.
  induction l as [|a l IH]; simpl; [tauto|].
  destruct l as [|b l]; [tauto|].
  intros [H|H]; [now left | right; apply IH, H].
Qed.

Lemma removelast_NoDup {A : Type} (l : list A) :
  NoDup l -> NoDup (removelast l).
Proof.
  induction 1 as [|a l Hin _ IH]; simpl; [constructor|].
  destruct l as [|b l]; [constructor|].
  constructor; [|exact IH].
  intros C. apply Hin. apply removelast_In. exact C.
Qed.

Lemma removelast_length {A : Type} (l : list A) :
  length (removelast l) = pred (length l).
Proof.
  induction l as [|a l IH]; [reflexivity|].
  destruct l as [|b l]; [reflexivity|].
  change (S (length (removelast (b :: l))) = S (length l)).
  rewrite IH. reflexivity.
Qed.

Lemma removeAt_cons {A : Type} (i : nat) (a : A) (l : list A) :
  removeAt (S i) (a :: l) = a :: removeAt i l.
Proof. reflexivity. Qed.

Lemma removeAt_In {A : Type} (x : A) (i : nat) (l : list A) :
  In x (removeAt i l) -> In x l.
Proof.
  revert i. induction l as [|a l IH]; intros i.
  - destruct i; unfold removeAt; simpl; tauto.
  - destruct i as [|i].
    + unfold removeAt. simpl. tauto.
    + rewrite removeAt_cons. intros [H|H]; [now left | right; eauto].
Qed.

Lemma removeAt_length {A : Type} (i : nat) (l : list A) :
  (length (removeAt i l) <= length l)%nat.
Proof.
  revert i. induction l as [|a l IH]; intros i.
  - destruct i; unfold removeAt; simpl; lia.
  - destruct i as [|i].
    + unfold removeAt. simpl. lia.
    + rewrite removeAt_cons. simpl. specialize (IH i). lia.
Qed.

Lemma removeAt_map {A B : Type} (f : A -> B) (i : nat) (l : list A) :
  map f (removeAt i l) = removeAt i (map f l).
Proof.
  unfold removeAt. rewrite map_app, firstn_map, skipn_map. reflexivity.
Qed.

Lemma removeAt_NoDup {A : Type} (i : nat) (l : list A) :
  NoDup l -> NoDup (removeAt i l).
Proof.
  intros H. revert i. induction H as [|a l Hin Hnd IH]; intros i.
  - destruct i; constructor.
  - destruct i as [|i].
    + exact Hnd.
    + rewrite removeAt_cons. constructor; [|apply IH].
      intros C. apply Hin. eapply removeAt_In. exact C.
Qed.

Lemma filter_map_In {A B : Type} (f : A -> B) (k : A -> bool) (y : B)
      (l : list A) :
  In y (map f (filter k l)) -> In y (map f l).
Proof.
  rewrite !in_map_iff. intros [x [E H]]. apply filter_In in H.
  exists x. tauto.
Qed.

Lemma filter_map_NoDup {A B : Type} (f : A -> B) (k : A -> bool)
      (l : list A) :
  NoDup (map f l) -> NoDup (map f (filter k l)).
Proof.
  induction l as [|a l IH]; simpl; [auto|].
  intros H. inversion H as [|? ? Hin Hnd]; subst.
  destruct (k a); simpl; [|auto].
  constructor; [|auto]. intros C. apply Hin.
  eapply filter_map_In. exact C.
Qed.

(* ------------------------------------------------------------------ *)
(** ** The snake never overlaps itself *)

Lemma snakeSound_init (e : Env) (g : Game) : snakeSound (init e g).
Proof.
  unfold snakeSound. cbn [snake grow init]. rewrite initSnake_cells.
  split; [|split; [unfold initialLen; simpl; lia | reflexivity]].
  repeat constructor; simpl; intuition discriminate.
Qed.

Lemma snakeSound_settle (e : Env) (p : Point) (g : Game) :
  snakeSound g -> ~ In p (snake g) -> snakeSound (settle e p g).
Proof.
  intros [Hnd [Hlen Hgr]] Hp. unfold snakeSound.
  rewrite (settle_snake e p g Hgr).
  destruct (settle_frame e p g) as [Hgr' _].
  assert (Hfull : NoDup (p :: snake g)) by (constructor; assumption).
  destruct (findFood p (foods g)).
  - repeat split; auto. simpl. lia.
  - repeat split; auto.
    + apply removelast_NoDup. exact Hfull.
    + rewrite removelast_length. simpl. exact Hlen.
Qed.

Lemma snakeSound_Update (e : Env) (g g' : Game) :
  snakeSound g -> Update e g = Ok g' -> snakeSound g'.
Proof.
  intros Hs HU.
  destruct (steered_fields e g) as [Hsn [_ [Hgr _]]].
  destruct (Update_Ok_cases e g g' HU)
    as [[_ ->]|[[_ [_ ->]]|[[_ [_ [_ ->]]]|[_ [_ [Hc [p [Hp HA]]]]]]]].
  - destruct (Space (keys e)); [apply snakeSound_init | exact Hs].
  - unfold snakeSound. rewrite Hsn, Hgr. exact Hs.
  - unfold loseLife.
    match goal with |- context [if ?b then _ else _] => destruct b end.
    + apply snakeSound_init.
    + unfold snakeSound. cbn. rewrite Hsn, Hgr. exact Hs.
  - destruct (advance_frame _ _ _ _ HA) as [E1 [_ [_ [_ [_ [E2 _]]]]]].
    assert (Hs' : snakeSound (set_lastMove (steered e g) (tMove e))).
    { unfold snakeSound. cbn. rewrite Hsn, Hgr. exact Hs. }
    assert (Hfree : ~ In p (snake (set_lastMove (steered e g) (tMove e)))).
    { cbn. unfold collides in Hc. rewrite Hp in Hc.
      apply orb_false_iff in Hc. destruct Hc as [_ Hc].
      apply hitsSelf_notIn in Hc. exact Hc. }
    destruct (snakeSound_settle e p _ Hs' Hfree) as [H1 [H2 _]].
    unfold snakeSound. rewrite E1, E2. auto.
Qed.

Lemma reachable_snakeSound (g : Game) : reachable g -> snakeSound g.
Proof.
  induction 1 as [e|e g g' _ IH HU].
  - apply snakeSound_init.
  - exact (snakeSound_Update e g g' IH HU).
Qed.

(** A reachable state has a head to step from: [Update] never panics. *)
Lemma reachable_no_panic (e : Env) (g : Game) :
  reachable g -> Update e g <> Panic.
Proof.
  intros Hr. destruct (reachable_snakeSound g Hr) as [_ [Hlen _]].
  unfold Update. destruct (gameOver g); [discriminate|].
  unfold tick. fold (steered e g).
  destruct (due e (steered e g)); [|discriminate]. cbn [negb].
  change (snake (set_lastMove (steered e g) (tMove e)))
    with (snake (steered e g)).
  destruct (steered_fields e g) as [Hsn _]. rewrite Hsn.
  destruct (snake g) as [|hd tl]; [simpl in Hlen; unfold initialLen in Hlen; lia|].
  destruct (hitsWall _); [discriminate|].
  destruct (hitsSelf _ _); [discriminate|].
  apply foodSpawnLogic_no_panic.
Qed.

(** C3.  In every state reached from the initial one by calls of [Update],
    while the phase is Playing the cells of the snake are pairwise distinct
    and there are at least 3 of them. *)
Theorem snake_cells_distinct (g : Game) :
  reachable g -> gameOver g = false ->
  NoDup (snake g) /\ (3 <= length (snake g))%nat.
Proof.
  intros Hr _. destruct (reachable_snakeSound g Hr) as [H1 [H2 _]].
  split; [exact H1 | exact H2].
Qed.


Lemma reachable_secondGame : reachable secondGame.
Proof.
  apply (reach_Update (quietAt (2 * Time.Second) [(0, 0)]) startGame).
  - apply reach_main.
  - reflexivity.
Qed.

Lemma snake_cells_distinct_witness :
  NoDup (snake secondGame) /\ (3 <= length (snake secondGame))%nat.
Proof.
  apply snake_cells_distinct; [apply reachable_secondGame | reflexivity].
Defined.

(* ------------------------------------------------------------------ *)
(** ** The food set stays small, spread out and on the grid *)

Lemma filter_short {A : Type} (k : A -> bool) (l : list A) :
  (length (filter k l) <= length l)%nat.
Proof.
  induction l as [|a l IH]; simpl; [lia|].
  destruct (k a); simpl; lia.
Qed.

(** The foods [settle] leaves were all there before. *)
Lemma settle_foods_In (e : Env) (p : Point) (g : Game) (f : Food) :
  In f (foods (settle e p g)) -> In f (foods g) /\ fresh (tNow e) f = true.
Proof.
  rewrite settle_foods. intros H. apply filter_In in H. destruct H as [H Hf].
  split; [|exact Hf].
  destruct (findFood p (foods g)); [eapply removeAt_In|]; exact H.
Qed.

Lemma foodSound_init (e : Env) (g : Game) : foodSound (init e g).
Proof.
  unfold foodSound. cbn. repeat split; try constructor. lia.
Qed.

Lemma foodSound_settle (e : Env) (p : Point) (g : Game) :
  foodSound g -> foodSound (settle e p g).
Proof.
  intros [Hlen [Hnd Hgrid]]. unfold foodSound. repeat split.
  - rewrite settle_foods.
    etransitivity; [apply filter_short|].
    destruct (findFood p (foods g)); [|exact Hlen].
    etransitivity; [apply removeAt_length | exact Hlen].
  - rewrite settle_foods. apply filter_map_NoDup.
    destruct (findFood p (foods g)); [|exact Hnd].
    rewrite removeAt_map. apply removeAt_NoDup. exact Hnd.
  - apply Forall_forall. intros f Hf.
    apply settle_foods_In in Hf. destruct Hf as [Hf _].
    rewrite Forall_forall in Hgrid. auto.
Qed.

Lemma foodSound_advance (e : Env) (p : Point) (g g' : Game) :
  foodSound g -> advance e p g = Ok g' -> foodSound g'.
Proof.
  intros Hs HA. pose proof (foodSound_settle e p g Hs) as [Hlen [Hnd Hgrid]].
  destruct (advance_Ok _ _ _ _ HA)
    as [->|[Hlt [_ [q [[_ Hq] [Hin ->]]]]]].
  - repeat split; assumption.
  - unfold foodSound. cbn [foods set_foods set_nextFoodTime].
    repeat split.
    + rewrite length_app. cbv zeta in Hlt. cbn [length].
      unfold foodCap in *. lia.
    + rewrite map_app. apply NoDup_app; [exact Hnd | |].
      * simpl. constructor; [tauto | constructor].
      * intros a Ha [<-|[]]. exact (Hq Ha).
    + apply Forall_app. split; [exact Hgrid|].
      constructor; [exact Hin | constructor].
Qed.

Lemma foodSound_Update (e : Env) (g g' : Game) :
  foodSound g -> Update e g = Ok g' -> foodSound g'.
Proof.
  intros Hs HU.
  destruct (steered_fields e g) as [_ [Hfo _]].
  destruct (Update_Ok_cases e g g' HU)
    as [[_ ->]|[[_ [_ ->]]|[[_ [_ [_ ->]]]|[_ [_ [_ [p [_ HA]]]]]]]].
  - destruct (Space (keys e)); [apply foodSound_init | exact Hs].
  - unfold foodSound. rewrite Hfo. exact Hs.
  - unfold loseLife.
    match goal with |- context [if ?b then _ else _] => destruct b end.
    + apply foodSound_init.
    + unfold foodSound. cbn. rewrite Hfo. exact Hs.
  - refine (foodSound_advance e p _ g' _ HA).
    unfold foodSound. cbn. rewrite Hfo. exact Hs.
Qed.

Lemma reachable_foodSound (g : Game) : reachable g -> foodSound g.
Proof.
  induction 1 as [e|e g g' _ IH HU].
  - apply foodSound_init.
  - exact (foodSound_Update e g g' IH HU).
Qed.

(** A food present after a call was there before it, or was spawned by it
    on a cell that the snake of the resulting state does not occupy. *)
Lemma Update_food_origin (e : Env) (g g' : Game) (f : Food) :
  Update e g = Ok g' -> In f (foods g') ->
  In f (foods g) \/ ~ In (Pos f) (snake g').
Proof.
  intros HU Hf.
  destruct (steered_fields e g) as [_ [Hfo _]].
  destruct (Update_Ok_cases e g g' HU)
    as [[_ ->]|[[_ [_ ->]]|[[_ [_ [_ ->]]]|[_ [_ [_ [p [_ HA]]]]]]]].
  - destruct (Space (keys e)); [destruct Hf | now left].
  - left. rewrite <- Hfo. exact Hf.
  - unfold loseLife in Hf.
    match type of Hf with context [if ?b then _ else _] => destruct b end.
    + destruct Hf.
    + left. rewrite <- Hfo. exact Hf.
  - assert (Hold : forall f0,
               In f0 (foods (settle e p (set_lastMove (steered e g) (tMove e))))
               -> In f0 (foods g)).
    { intros f0 H0. apply settle_foods_In in H0. destruct H0 as [H0 _].
      cbn in H0. rewrite <- Hfo. exact H0. }
    destruct (advance_Ok _ _ _ _ HA)
      as [->|[_ [_ [q [[Hq _] [_ ->]]]]]].
    + left. auto.
    + cbn [foods set_foods set_nextFoodTime] in Hf.
      apply in_app_iff in Hf. destruct Hf as [Hf|[<-|[]]].
      * left. auto.
      * right. exact Hq.
Qed.

(** C4.  In every reachable state the food set holds at most 4 items, no
    two of them on the same cell, each on a cell of the 13 x 10 grid; and a
    food item that a call adds to the set lies, in the state that call
    returns, on no cell of the snake. *)
Theorem food_set_invariant (g : Game) :
  reachable g ->
  (0 <= length (foods g) <= 4)%nat
  /\ NoDup (map Pos (foods g))
  /\ (forall f, In f (foods g) ->
        0 <= X (Pos f) < 13 /\ 0 <= Y (Pos f) < 10)
  /\ (forall e g' f,
        Update e g = Ok g' -> In f (foods g') -> ~ In f (foods g) ->
        ~ In (Pos f) (snake g'))
  /\ (forall ds t g',
        spawnFood ds t g = Ok g' ->
        exists q, foods g' = foods g ++ [mkFood q t (4 * Time.Second)]
                  /\ ~ In q (snake g')).
Proof.
  intros Hr. destruct (reachable_foodSound g Hr) as [Hlen [Hnd Hgrid]].
  repeat split; try exact Hnd; cycle -1.
  { intros ds t g' HS.
    destruct (spawnFood_Ok ds t g g' HS) as [q [-> [[Hq _] _]]].
    exists q. split; [reflexivity | exact Hq]. }
  - lia.
  - exact Hlen.
  - rewrite Forall_forall in Hgrid. apply (Hgrid f H).
  - rewrite Forall_forall in Hgrid. apply (Hgrid f H).
  - rewrite Forall_forall in Hgrid. apply (Hgrid f H).
  - rewrite Forall_forall in Hgrid. apply (Hgrid f H).
  - intros e g' f HU Hin Hnew.
    destruct (Update_food_origin e g g' f HU Hin); tauto.
Qed.

Lemma food_set_invariant_witness :
  (0 <= length (foods secondGame) <= 4)%nat
  /\ NoDup (map Pos (foods secondGame))
  /\ foods secondGame
     = [mkFood (mkPoint 0 0) (2 * Time.Second) (4 * Time.Second)].
Proof.
  destruct (food_set_invariant secondGame reachable_secondGame)
    as [H1 [H2 _]].
  split; [exact H1 | split; [exact H2 | reflexivity]].
Defined.

(* ------------------------------------------------------------------ *)
(** ** Lives *)

Lemma loseLife_exact (e : Env) (g : Game) :
  1 <= lives g <= 3 ->
  loseLife e g
  = if lives g - 1 >? 0 then init e (set_lives g (lives g - 1))
    else set_gameOver (set_lives g (lives g - 1)) true.
Proof.
  intros H. unfold loseLife, GoInt.sub. cbn [lives set_lives].
  rewrite wrap_id; [reflexivity|].
  unfold GoInt.in_range, GoInt.min_int, GoInt.max_int. lia.
Qed.

Lemma livesSound_Update (e : Env) (g g' : Game) :
  livesSound g -> Update e g = Ok g' -> livesSound g'.
Proof.
  intros [Hr Hp] HU.
  destruct (steered_fields e g) as [_ [_ [_ [Hgo [_ [_ [Hli _]]]]]]].
  destruct (Update_Ok_cases e g g' HU)
    as [[_ ->]|[[_ [_ ->]]|[[Hplay [_ [_ ->]]]|[_ [_ [_ [p [_ HA]]]]]]]].
  - destruct (Space (keys e)); [|split; assumption].
    unfold livesSound. cbn. split; intros; lia.
  - unfold livesSound. rewrite Hgo, Hli. split; assumption.
  - specialize (Hp Hplay).
    rewrite loseLife_exact by (cbn; rewrite Hli; lia).
    cbn [lives set_lastMove]. rewrite Hli.
    destruct (Z.gtb_spec (lives g - 1) 0); unfold livesSound; cbn;
      split; intros; try lia; discriminate.
  - destruct (advance_frame _ _ _ _ HA) as [_ [E1 [_ [E2 _]]]].
    cbn in E1, E2. unfold livesSound. rewrite E1, E2, Hgo, Hli.
    split; assumption.
Qed.

Lemma reachable_livesSound (g : Game) : reachable g -> livesSound g.
Proof.
  induction 1 as [e|e g g' _ IH HU].
  - unfold livesSound. cbn. split; intros; lia.
  - exact (livesSound_Update e g g' IH HU).
Qed.

(** C10.  In every reachable state lives are not negative, and at least 1
    while the phase is Playing.  A call made in phase Playing returns a
    state in phase GameOver exactly when its step was due, collided, and
    took the last life; lives are then 0. *)
Theorem lives_invariant (g : Game) :
  reachable g ->
  0 <= lives g
  /\ (gameOver g = false -> 1 <= lives g)
  /\ (forall e g',
        gameOver g = false -> Update e g = Ok g' ->
        (gameOver g' = true
         <-> due e g = true /\ collides (steered e g) = true
             /\ lives g - 1 = 0)
        /\ (gameOver g' = true -> lives g' = 0)).
Proof.
  intros Hr. destruct (reachable_livesSound g Hr) as [Hrange Hpos].
  split; [lia|]. split; [exact Hpos|].
  intros e g' Hplay HU. specialize (Hpos Hplay).
  destruct (steered_fields e g) as [_ [_ [_ [Hgo [_ [_ [Hli _]]]]]]].
  destruct (Update_Ok_cases e g g' HU)
    as [[C _]|[[_ [Hd ->]]|[[_ [Hd [Hc ->]]]|[_ [Hd [Hc [p [_ HA]]]]]]]].
  - congruence.
  - rewrite Hgo, Hplay, Hd. split; [split|]; intros; try discriminate.
    destruct H as [H _]. discriminate.
  - rewrite loseLife_exact by (cbn; rewrite Hli; lia).
    cbn [lives set_lastMove]. rewrite Hli.
    destruct (Z.gtb_spec (lives g - 1) 0); cbn; split.
    + split; [discriminate | lia].
    + discriminate.
    + split; [intros _; repeat split; auto; lia | reflexivity].
    + intros _. lia.
  - destruct (advance_frame _ _ _ _ HA) as [_ [E1 _]].
    cbn in E1. rewrite E1, Hgo, Hplay, Hc.
    split; [split|]; intros; try discriminate.
    destruct H as [_ [H _]]. discriminate.
Qed.

Lemma lives_invariant_witness :
  1 <= lives lastLife
  /\ (gameOver lostGame = true
      <-> due (quietAtMs 7400) lastLife = true
          /\ collides (steered (quietAtMs 7400) lastLife) = true
          /\ lives lastLife - 1 = 0).
Proof.
  destruct (lives_invariant lastLife reachable_lastLife) as [_ [H2 H3]].
  split; [apply H2; vm_compute; reflexivity|].
  apply (H3 (quietAtMs 7400) lostGame); vm_compute; reflexivity.
Defined.

(* ------------------------------------------------------------------ *)
(** ** When a spawn is attempted *)

Lemma spawnEligible_gate (now : Time.Time) (g : Game) :
  spawnEligible now g
  <-> (length (foods g) <? foodCap)%nat = true /\ spawnGate now g = true.
Proof.
  unfold spawnEligible, spawnGate, Time.IsZero, Time.After.
  rewrite Nat.ltb_lt, orb_true_iff, Z.eqb_eq, Z.ltb_lt. reflexivity.
Qed.

Lemma foodSpawnLogic_idle (now t : Time.Time) (ds : list (Z * Z)) (g : Game) :
  ~ spawnEligible now g -> foodSpawnLogic now t ds g = Ok g.
Proof.
  rewrite spawnEligible_gate. unfold foodSpawnLogic. intros H.
  destruct (length (foods g) <? foodCap)%nat; [|reflexivity].
  destruct (spawnGate now g); [|reflexivity].
  exfalso. apply H. split; reflexivity.
Qed.

Lemma foodSpawnLogic_spawns (now t : Time.Time) (ds : list (Z * Z))
      (g : Game) :
  spawnEligible now g -> offersFree g ds ->
  exists q,
    freeCell g q /\ inGrid q /\
    foodSpawnLogic now t ds g
    = Ok (set_nextFoodTime
            (set_foods g (foods g ++ [mkFood q t (4 * Time.Second)]))
            (if (S (length (foods g)) <? foodCap)%nat then now
             else Time.Add now (1 * Time.Second))).
Proof.
  intros He Hf. destruct (foodSpawnLogic_returns now t ds g Hf) as [g' Hg'].
  destruct (foodSpawnLogic_Ok _ _ _ _ _ Hg') as [->|[_ [_ [q [H1 [H2 ->]]]]]].
  - exfalso. apply spawnEligible_gate in He. destruct He as [E1 E2].
    unfold foodSpawnLogic in Hg'. rewrite E1, E2 in Hg'.
    destruct (spawnFood ds t g) as [g1| |] eqn:HS; try discriminate.
    destruct (spawnFood_Ok _ _ _ _ HS) as [q [-> _]].
    injection Hg' as Hg'. apply (f_equal foods) in Hg'. cbn in Hg'.
    apply (f_equal (@length Food)) in Hg'. rewrite length_app in Hg'.
    simpl in Hg'. lia.
  - exists q. auto.
Qed.

Lemma foodSpawnLogic_starves (now t : Time.Time) (ds : list (Z * Z))
      (g : Game) :
  spawnEligible now g -> ~ offersFree g ds ->
  foodSpawnLogic now t ds g = Spinning.
Proof.
  intros He Hf. apply spawnEligible_gate in He. destruct He as [E1 E2].
  unfold foodSpawnLogic. rewrite E1, E2.
  rewrite (spawnFood_spins ds t g Hf). reflexivity.
Qed.

(** C5 (as the code has it).  In a due step that finds no collision, let [s]
    be the state once the snake has moved, eaten and the stale food is
    gone.  A spawn is attempted exactly when [s] holds fewer than 4 foods
    and the deadline is unset or strictly earlier than [now]: then the call
    returns [s] with one more food if the draws offer a free cell and keeps
    retrying if they do not; in every other case, also when [now] equals
    the deadline, the call returns [s] as it is. *)
Theorem spawn_attempt_condition (e : Env) (g : Game) (p : Point) :
  gameOver g = false -> due e g = true ->
  candidate (steered e g) = Some p -> collides (steered e g) = false ->
  let s := settle e p (set_lastMove (steered e g) (tMove e)) in
  let attempted :=
    (length (foods s) < 4)%nat
    /\ (nextFoodTime s = 0 \/ nextFoodTime s < tNow e) in
  (attempted ->
     (offersFree s (draws e) ->
        exists g', Update e g = Ok g'
                   /\ length (foods g') = S (length (foods s)))
     /\ (~ offersFree s (draws e) -> Update e g = Spinning))
  /\ (~ attempted -> Update e g = Ok s).
Proof.
  intros Hgo Hd Hp Hc s attempted.
  rewrite (Update_advance e g p Hgo Hd Hp Hc). unfold advance. fold s.
  split; [intros Ha; split|].
  - intros Hf.
    destruct (foodSpawnLogic_spawns (tNow e) (tSpawn e) (draws e) s Ha Hf)
      as [q [_ [_ ->]]].
    eexists. split; [reflexivity|]. cbn. rewrite length_app, Nat.add_comm.
    reflexivity.
  - intros Hf. apply foodSpawnLogic_starves; assumption.
  - intros Hn. apply foodSpawnLogic_idle. exact Hn.
Qed.

Lemma spawn_attempt_condition_witness :
  exists g',
    Update (quietAt (2 * Time.Second) [(0, 0)]) startGame = Ok g'
    /\ length (foods g') = 1%nat.
Proof.
  destruct (spawn_attempt_condition
              (quietAt (2 * Time.Second) [(0, 0)]) startGame (mkPoint 7 5))
    as [H _]; try reflexivity.
  destruct H as [H _].
  - split; [vm_compute; lia | right; reflexivity].
  - apply H. apply Exists_cons_hd. split; vm_compute; intuition discriminate.
Defined.

(** C5 as the specification words it, with a spawn attempted when [now]
    equals the deadline, fails.  [afterMeal] is reachable, holds 3 foods,
    and its deadline is 2.4 s; a due step whose [now] is 2.4 s exactly, with
    a draw on the free cell (3,0) at hand, attempts no spawn. *)
Lemma no_spawn_at_the_deadline :
  let e := quietAt (2400 * Time.Millisecond) [(3, 0)] in
  reachable afterMeal
  /\ gameOver afterMeal = false /\ due e afterMeal = true
  /\ collides (steered e afterMeal) = false
  /\ length (foods afterMeal) = 3%nat
  /\ tNow e = nextFoodTime afterMeal
  /\ offersFree afterMeal (draws e)
  /\ exists g', Update e afterMeal = Ok g' /\ foods g' = foods afterMeal
                /\ nextFoodTime g' = nextFoodTime afterMeal.
Proof.
  cbv zeta. split; [exact reachable_afterMeal|].
  rewrite afterMeal_state. repeat split.
  - apply Exists_cons_hd. split; vm_compute; intuition discriminate.
  - eexists. split; [vm_compute; reflexivity|]. split; reflexivity.
Qed.

(* ------------------------------------------------------------------ *)
(** ** Burst fill, then throttle *)

(** One eligible, well-fed attempt on a set of [n] foods. *)
Lemma attempt_spawns (a : Attempt) (g : Game) :
  spawnEligible (atNow a) g -> offersFree g (atDraws a) ->
  exists g',
    attempt a g = Ok g'
    /\ length (foods g') = S (length (foods g))
    /\ nextFoodTime g'
       = (if (S (length (foods g)) <? foodCap)%nat then atNow a
          else atNow a + 1 * Time.Second).
Proof.
  intros He Hf. unfold attempt.
  destruct (foodSpawnLogic_spawns (atNow a) (atSpawn a) (atDraws a) g He Hf)
    as [q [_ [_ ->]]].
  eexists. split; [reflexivity|]. cbn. rewrite length_app, Nat.add_comm.
  split; reflexivity.
Qed.

(** C6.  After every successful spawn the deadline is [now] if the set is
    still below 4 and [now + 1 s] otherwise.  Hence, from an empty food set
    with no deadline set, four attempts at increasing instants (clock
    readings, so later than Go's zero instant), each with draws that offer
    a free cell, all return with one new food each and a deadline equal to
    their own [now], until the set holds 4; the deadline is then the fourth
    instant plus 1 s, and in any state with that deadline an attempt made
    no later than it spawns nothing. *)
Theorem burst_then_throttle :
  (forall now t ds g g',
      foodSpawnLogic now t ds g = Ok g' ->
      length (foods g') = S (length (foods g)) ->
      nextFoodTime g'
      = if (length (foods g') <? 4)%nat then now else now + 1 * Time.Second)
  /\ (forall a1 a2 a3 a4 g0,
        foods g0 = [] -> nextFoodTime g0 = 0 ->
        0 < atNow a1 < atNow a2 -> atNow a2 < atNow a3 < atNow a4 ->
        wellFed [a1; a2; a3; a4] g0 ->
        exists g1 g2 g3 g4,
          attempt a1 g0 = Ok g1 /\ attempt a2 g1 = Ok g2
          /\ attempt a3 g2 = Ok g3 /\ attempt a4 g3 = Ok g4
          /\ spawnRun [a1; a2; a3; a4] g0 = Ok g4
          /\ length (foods g1) = 1%nat /\ nextFoodTime g1 = atNow a1
          /\ length (foods g2) = 2%nat /\ nextFoodTime g2 = atNow a2
          /\ length (foods g3) = 3%nat /\ nextFoodTime g3 = atNow a3
          /\ length (foods g4) = 4%nat
          /\ nextFoodTime g4 = atNow a4 + 1 * Time.Second
          /\ forall a5 g,
               nextFoodTime g = nextFoodTime g4 ->
               atNow a5 <= atNow a4 + 1 * Time.Second ->
               attempt a5 g = Ok g).
Proof.
  split.
  - intros now t ds g g' H Hlen.
    destruct (foodSpawnLogic_Ok _ _ _ _ _ H) as [->|[_ [_ [q [_ [_ ->]]]]]].
    + lia.
    + cbn. rewrite length_app, Nat.add_comm. reflexivity.
  - intros a1 a2 a3 a4 g0 Hf0 Hd0 [Hpos H12] [H23 H34] Hfed.
    destruct Hfed as [F1 Hfed].
    destruct (attempt_spawns a1 g0) as [g1 [A1 [L1 D1]]]; [|exact F1|].
    { split; [rewrite Hf0; unfold foodCap; simpl; lia | now left]. }
    rewrite Hf0 in L1, D1. cbn in L1, D1.
    destruct (Hfed g1 A1) as [F2 Hfed2].
    destruct (attempt_spawns a2 g1) as [g2 [A2 [L2 D2]]]; [|exact F2|].
    { split; [rewrite L1; unfold foodCap; lia | right; lia]. }
    rewrite L1 in L2, D2. cbn in L2, D2.
    destruct (Hfed2 g2 A2) as [F3 Hfed3].
    destruct (attempt_spawns a3 g2) as [g3 [A3 [L3 D3]]]; [|exact F3|].
    { split; [rewrite L2; unfold foodCap; lia | right; lia]. }
    rewrite L2 in L3, D3. cbn in L3, D3.
    destruct (Hfed3 g3 A3) as [F4 _].
    destruct (attempt_spawns a4 g3) as [g4 [A4 [L4 D4]]]; [|exact F4|].
    { split; [rewrite L3; unfold foodCap; lia | right; lia]. }
    rewrite L3 in L4, D4. cbn in L4, D4.
    exists g1, g2, g3, g4. repeat split; try assumption.
    + simpl. rewrite A1, A2, A3, A4. reflexivity.
    + intros a5 g Hdl Hearly. apply foodSpawnLogic_idle.
      unfold Time.Second, Time.Millisecond in *.
      intros [_ [Hz|Hlt]]; rewrite Hdl, D4 in *; lia.
Qed.

Lemma burst_then_throttle_witness :
  (exists g4,
      spawnRun [tryAt 100 (0, 0); tryAt 200 (1, 0);
                tryAt 300 (2, 0); tryAt 400 (3, 0)] bareBoard = Ok g4
      /\ length (foods g4) = 4%nat
      /\ nextFoodTime g4 = 1400 * Time.Millisecond)
  /\ nextFoodTime secondGame = 2 * Time.Second.
Proof.
  split.
  - destruct (proj2 burst_then_throttle
                (tryAt 100 (0, 0)) (tryAt 200 (1, 0))
                (tryAt 300 (2, 0)) (tryAt 400 (3, 0)) bareBoard)
      as (g1 & g2 & g3 & g4 & _ & _ & _ & _ & R & _ & _ & _ & _ & _ & _
          & L & D & _).
    + reflexivity.
    + reflexivity.
    + vm_compute. split; reflexivity.
    + vm_compute. split; reflexivity.
    + split; [apply Exists_cons_hd; split; vm_compute; intuition discriminate|].
      intros g1 E1. vm_compute in E1. injection E1 as <-.
      split; [apply Exists_cons_hd; split; vm_compute; intuition discriminate|].
      intros g2 E2. vm_compute in E2. injection E2 as <-.
      split; [apply Exists_cons_hd; split; vm_compute; intuition discriminate|].
      intros g3 E3. vm_compute in E3. injection E3 as <-.
      split; [apply Exists_cons_hd; split; vm_compute; intuition discriminate|].
      intros g4 _. exact I.
    + exists g4. split; [exact R|]. split; [exact L|]. rewrite D. reflexivity.
  - apply (proj1 burst_then_throttle (2 * Time.Second) (2 * Time.Second)
             [(0, 0)]
             (settle (quietAt (2 * Time.Second) [(0, 0)]) (mkPoint 7 5)
                     (set_lastMove startGame (2 * Time.Second)))
             secondGame); reflexivity.
Defined.

(* ------------------------------------------------------------------ *)
(** ** Expiry *)

(** The meal takes the first food under the head and no other. *)
Lemma meal_spares_others (p : Point) (fs : list Food) (f : Food) :
  In f fs -> p <> Pos f ->
  In f match findFood p fs with
       | Some i => removeAt i fs
       | None => fs
       end.
Proof.
  intros Hin Hp. induction fs as [|f0 l IH]; [destruct Hin|].
  cbn [findFood]. destruct (Point_eqb p (Pos f0)) eqn:E.
  - apply Point_eqb_eq in E.
    destruct Hin as [->|Hin]; [congruence | exact Hin].
  - destruct (findFood p l) as [i|] eqn:Ef; cbn [option_map].
    + rewrite removeAt_cons.
      destruct Hin as [->|Hin]; [now left | right; auto].
    + exact Hin.
Qed.

(** C7 (expiry law, as the code has it).  Take a due step made in phase
    Playing, with the clock of [spawnFood] not behind the [now] of the
    step.  If the step does not end the game, no food of the previous state
    whose elapsed time at [now] has reached its lifetime is left in the food
    set.  If the step finds no collision, every food of the previous state
    whose elapsed time is strictly below its lifetime, and on which the head
    does not land, is still in the set. *)
Theorem expiry_law (e : Env) (g g' : Game) :
  gameOver g = false -> due e g = true ->
  tNow e <= tSpawn e ->
  Update e g = Ok g' ->
  (gameOver g' = false ->
   forall f, In f (foods g) ->
             Lifetime f <= Time.Sub (tNow e) (Spawned f) ->
             ~ In f (foods g'))
  /\ (collides (steered e g) = false ->
      forall f, In f (foods g) ->
                Time.Sub (tNow e) (Spawned f) < Lifetime f ->
                candidate (steered e g) <> Some (Pos f) ->
                In f (foods g')).
Proof.
  intros Hgo Hd Hclock HU.
  destruct (steered_fields e g) as [_ [Hfo _]].
  destruct (Update_Ok_cases e g g' HU)
    as [[C _]|[[_ [C _]]|[[_ [_ [Hc ->]]]|[_ [_ [Hc [p [Hp HA]]]]]]]];
    try congruence.
  - split; [|congruence].
    unfold loseLife.
    match goal with |- context [if ?b then _ else _] => destruct b end; cbn.
    + intros _ f _ _ [].
    + discriminate.
  - split.
    + intros _ f Hin Hstale Hin'.
      assert (Hnot : fresh (tNow e) f = false).
      { unfold fresh. apply Z.ltb_ge. exact Hstale. }
      destruct (advance_Ok _ _ _ _ HA)
        as [->|[_ [_ [q [_ [_ ->]]]]]].
      * apply settle_foods_In in Hin'. destruct Hin' as [_ C]. congruence.
      * cbn [foods set_foods set_nextFoodTime] in Hin'.
        apply in_app_iff in Hin'. destruct Hin' as [Hin'|[<-|[]]].
        -- apply settle_foods_In in Hin'. destruct Hin' as [_ C].
           congruence.
        -- cbn [Lifetime Spawned] in Hstale.
           assert (Time.Sub (tNow e) (tSpawn e) <= 0).
           { unfold Time.Sub, Time.minDuration, Time.maxDuration,
               GoInt.min_int, GoInt.max_int.
             repeat match goal with |- context [if ?b then _ else _] =>
               destruct b eqn:? end; lia. }
           unfold Time.Second, Time.Millisecond in Hstale. lia.
    + intros _ f Hin Hfresh Hnp.
      assert (Hkeep : In f (foods (settle e p
                        (set_lastMove (steered e g) (tMove e))))).
      { rewrite settle_foods. apply filter_In. split.
        - cbn [foods set_lastMove]. rewrite Hfo.
          apply meal_spares_others; congruence.
        - unfold fresh. apply Z.ltb_lt. exact Hfresh. }
      destruct (advance_Ok _ _ _ _ HA)
        as [->|[_ [_ [q [_ [_ ->]]]]]].
      * exact Hkeep.
      * cbn [foods set_foods set_nextFoodTime]. apply in_app_iff. now left.
Qed.

Lemma expiry_law_witness :
  exists g',
    Update (quietAt (5250 * Time.Millisecond) [(3, 0)]) afterMeal = Ok g'
    /\ ~ In (mkFood (mkPoint 0 0) (1100 * Time.Millisecond)
                    (4 * Time.Second)) (foods g')
    /\ In (mkFood (mkPoint 2 0) (1300 * Time.Millisecond)
                  (4 * Time.Second)) (foods g').
Proof.
  assert (HU : exists g',
             Update (quietAt (5250 * Time.Millisecond) [(3, 0)]) afterMeal
             = Ok g')
    by (eexists; vm_compute; reflexivity).
  destruct HU as [g' HU]. exists g'. split; [exact HU|].
  destruct (expiry_law (quietAt (5250 * Time.Millisecond) [(3, 0)])
              afterMeal g') as [H1 H2].
  - vm_compute. reflexivity.
  - vm_compute. reflexivity.
  - vm_compute. discriminate.
  - exact HU.
  - split.
    + apply H1.
      * vm_compute in HU. injection HU as <-. reflexivity.
      * vm_compute. left. reflexivity.
      * vm_compute. discriminate.
    + apply H2.
      * vm_compute. reflexivity.
      * vm_compute. right. right. left. reflexivity.
      * vm_compute. reflexivity.
      * vm_compute. discriminate.
Defined.

(** C7 as the specification words it, with every stale food removed by the
    next due step, fails.  [lastLife] is reachable and Playing, and holds
    the food spawned at 2.5 s.  At the due step of 7.4 s that food is 4.9 s
    old and nothing is eaten, yet the step, a collision that takes the last
    life, leaves it in the food set of the finished game. *)
Lemma stale_food_outlives_the_game :
  let g := lastLife in
  let e := quietAtMs 7400 in
  reachable g
  /\ gameOver g = false /\ due e g = true
  /\ In oldApple (foods g)
  /\ Lifetime oldApple = 4 * Time.Second
  /\ Time.Sub (tNow e) (Spawned oldApple) = 4900 * Time.Millisecond
  /\ exists g', Update e g = Ok g' /\ score g' = score g
                /\ gameOver g' = true /\ In oldApple (foods g').
Proof.
  cbv zeta. split; [exact reachable_lastLife|].
  split; [vm_compute; reflexivity|].
  split; [vm_compute; reflexivity|].
  split; [vm_compute; left; reflexivity|].
  split; [vm_compute; reflexivity|].
  split; [vm_compute; reflexivity|].
  eexists. split; [vm_compute; reflexivity|].
  vm_compute. repeat split. left. reflexivity.
Qed.

(* ================================================================== *)
(** * Further properties of the code *)

(* ------------------------------------------------------------------ *)
(** ** The snake is a path of the grid *)

Lemma inGrid_bounds (p : Point) :
  inGrid p <-> (0 <= X p < 13 /\ 0 <= Y p < 10).
Proof. unfold inGrid. change gridW with 13. change gridH with 10. tauto. Qed.

Lemma delta_unit (h : Heading) :
  Z.abs (X (delta h)) + Z.abs (Y (delta h)) = 1.
Proof. destruct h; reflexivity. Qed.

(** From a cell of the grid the machine addition of line 86 is the
    mathematical one. *)
Lemma stepFrom_exact (a : Point) (h : Heading) :
  inGrid a ->
  stepFrom a (delta h)
  = mkPoint (X a + X (delta h)) (Y a + Y (delta h)).
Proof.
  intros Ha. destruct (proj1 (inGrid_bounds a) Ha) as [Hx Hy].
  unfold stepFrom, GoInt.add.
  assert (P : 2 ^ 63 = 9223372036854775808) by reflexivity.
  rewrite !wrap_id; [reflexivity| |];
    unfold GoInt.in_range, GoInt.min_int, GoInt.max_int; rewrite P;
    destruct h; cbn [delta X Y]; lia.
Qed.

Lemma stepFrom_adjacent (a : Point) (h : Heading) :
  inGrid a -> adjacent (stepFrom a (delta h)) a.
Proof.
  intros Ha. rewrite stepFrom_exact by exact Ha. unfold adjacent.
  destruct h; cbn [delta X Y]; lia.
Qed.

Lemma linked_removelast (s : list Point) : linked s -> linked (removelast s).
Proof.
  induction s as [|a s IH]; [auto|].
  destruct s as [|b s]; [auto|].
  intros [Hab Hl]. specialize (IH Hl).
  destruct s as [|c s]; [exact I|].
  split; [exact Hab | exact IH].
Qed.

Lemma steered_heading (e : Env) (g : Game) :
  (exists h, dir g = delta h) -> exists h, dir (steered e g) = delta h.
Proof.
  intros Hh. unfold steered, directionInput.
  repeat match goal with |- context [if ?b then _ else _] =>
    destruct b end; cbn [dir set_dir].
  - exists Up. reflexivity.
  - exists Down. reflexivity.
  - exists Left. reflexivity.
  - exists Right. reflexivity.
  - exact Hh.
Qed.

Lemma boardSound_init (e : Env) (g : Game) : boardSound (init e g).
Proof.
  unfold boardSound. cbn [snake dir init]. rewrite initSnake_cells.
  split; [|split].
  - repeat constructor; vm_compute; try discriminate; reflexivity.
  - exists Right. reflexivity.
  - repeat split.
Qed.

Lemma boardSound_settle (e : Env) (p hd : Point) (tl : list Point)
      (h : Heading) (g : Game) :
  boardSound g -> grow g = false ->
  snake g = hd :: tl -> dir g = delta h ->
  p = stepFrom hd (delta h) -> inGrid p ->
  boardSound (settle e p g).
Proof.
  intros [Hgrid [_ Hlink]] Hgr Hs Hd Hp Hin.
  destruct (settle_frame e p g) as [_ [_ [_ [_ [Hdir _]]]]].
  assert (Hhd : inGrid hd).
  { rewrite Hs in Hgrid. inversion Hgrid. assumption. }
  assert (Hfull : Forall inGrid (p :: snake g) /\ linked (p :: snake g)).
  { split; [constructor; assumption|].
    rewrite Hs. split; [|rewrite <- Hs; exact Hlink].
    rewrite Hp. apply stepFrom_adjacent. exact Hhd. }
  destruct Hfull as [F L].
  unfold boardSound. rewrite (settle_snake e p g Hgr), Hdir.
  destruct (findFood p (foods g)).
  - split; [exact F | split; [eauto | exact L]].
  - split; [|split; [eauto | apply linked_removelast; exact L]].
    apply Forall_forall. intros c Hc. apply removelast_In in Hc.
    rewrite Forall_forall in F. auto.
Qed.

Lemma boardSound_Update (e : Env) (g g' : Game) :
  snakeSound g -> boardSound g -> Update e g = Ok g' -> boardSound g'.
Proof.
  intros [_ [_ Hgr]] Hb HU.
  destruct (steered_fields e g) as [Hsn [_ [Hgr' _]]].
  assert (Hst : boardSound (steered e g)).
  { destruct Hb as [B1 [B2 B3]]. unfold boardSound. rewrite Hsn.
    split; [exact B1 | split; [apply steered_heading; exact B2 | exact B3]]. }
  destruct (Update_Ok_cases e g g' HU)
    as [[_ ->]|[[_ [_ ->]]|[[_ [_ [_ ->]]]|[_ [_ [Hc [p [Hp HA]]]]]]]].
  - destruct (Space (keys e)); [apply boardSound_init | exact Hb].
  - exact Hst.
  - unfold loseLife.
    match goal with |- context [if ?b then _ else _] => destruct b end.
    + apply boardSound_init.
    + exact Hst.
  - destruct Hst as [S1 [[h Hh] S3]].
    unfold candidate in Hp.
    destruct (snake (steered e g)) as [|hd tl] eqn:Hs; [discriminate|].
    injection Hp as Hp. rewrite Hh in Hp.
    assert (Hin : inGrid p).
    { unfold collides, candidate in Hc. rewrite Hs, Hh, Hp in Hc.
      apply orb_false_iff in Hc. apply hitsWall_inGrid. tauto. }
    assert (Hb' : boardSound (settle e p (set_lastMove (steered e g) (tMove e)))).
    { apply (boardSound_settle e p hd tl h); cbn; auto.
      - unfold boardSound. cbn. rewrite Hs. split; [exact S1|].
        split; [eauto | exact S3].
      - congruence. }
    destruct Hb' as [B1 [B2 B3]].
    destruct (advance_frame _ _ _ _ HA) as [E1 [_ [_ [_ [_ [_ E2]]]]]].
    destruct (settle_frame e p (set_lastMove (steered e g) (tMove e)))
      as [_ [_ [_ [_ [E3 _]]]]].
    unfold boardSound. rewrite E1, E2, <- E3. auto.
Qed.

Lemma reachable_boardSound (g : Game) : reachable g -> boardSound g.
Proof.
  induction 1 as [e|e g g' Hr IH HU].
  - apply boardSound_init.
  - exact (boardSound_Update e g g' (reachable_snakeSound g Hr) IH HU).
Qed.

(** X1.  In every reachable state the snake is a path of the grid: each of
    its cells lies in the 13 x 10 grid, and each cell shares a side with
    the next one. *)
Theorem snake_is_a_grid_path (g : Game) :
  reachable g ->
  (forall c, In c (snake g) -> 0 <= X c < 13 /\ 0 <= Y c < 10)
  /\ linked (snake g).
Proof.
  intros Hr. destruct (reachable_boardSound g Hr) as [B1 [_ B3]].
  split; [|exact B3].
  intros c Hc.
  exact (proj1 (inGrid_bounds c) (proj1 (Forall_forall _ _) B1 c Hc)).
Qed.

Lemma snake_is_a_grid_path_witness :
  linked (snake afterMeal)
  /\ forall c, In c (snake afterMeal) -> 0 <= X c < 13 /\ 0 <= Y c < 10.
Proof.
  destruct (snake_is_a_grid_path afterMeal reachable_afterMeal) as [H1 H2].
  split; assumption.
Defined.

(** X2.  In every reachable state the heading is one of the four unit
    steps Up, Down, Left, Right. *)
Theorem heading_is_a_unit_step (g : Game) :
  reachable g -> exists h, dir g = delta h.
Proof.
  intros Hr. destruct (reachable_boardSound g Hr) as [_ [B2 _]]. exact B2.
Qed.

Lemma heading_is_a_unit_step_witness : exists h, dir lastLife = delta h.
Proof. exact (heading_is_a_unit_step lastLife reachable_lastLife). Defined.

(* ------------------------------------------------------------------ *)
(** ** Food and snake never share a cell between calls *)

Lemma findFood_None (p : Point) (fs : list Food) :
  findFood p fs = None -> forall f, In f fs -> Pos f <> p.
Proof.
  induction fs as [|f0 l IH]; [intros _ f []|].
  cbn [findFood]. destruct (Point_eqb p (Pos f0)) eqn:E; [discriminate|].
  destruct (findFood p l); [discriminate|].
  intros _ f [<-|Hf].
  - apply Point_eqb_neq in E. congruence.
  - apply IH; [reflexivity | exact Hf].
Qed.

Lemma findFood_Some (p : Point) (fs : list Food) :
  In p (map Pos fs) -> exists i, findFood p fs = Some i.
Proof.
  induction fs as [|f0 l IH]; [intros []|].
  cbn [findFood map]. destruct (Point_eqb p (Pos f0)) eqn:E; [eauto|].
  intros [H|H].
  - apply Point_eqb_neq in E. congruence.
  - destruct (IH H) as [i ->]. cbn. eauto.
Qed.

(** With foods on distinct cells, the meal clears the cell of the head. *)
Lemma meal_clears_cell (p : Point) (fs : list Food) (i : nat) :
  NoDup (map Pos fs) -> findFood p fs = Some i ->
  forall f, In f (removeAt i fs) -> Pos f <> p.
Proof.
  revert i. induction fs as [|f0 l IH]; intros i Hnd; [discriminate|].
  cbn [findFood]. cbn [map] in Hnd. inversion Hnd as [|? ? Hnot Hnd']; subst.
  destruct (Point_eqb p (Pos f0)) eqn:E.
  - intros Hi. injection Hi as <-. apply Point_eqb_eq in E.
    unfold removeAt. cbn. intros f Hf C. apply Hnot.
    rewrite <- E, <- C. apply in_map. exact Hf.
  - destruct (findFood p l) as [j|] eqn:Ej; [|discriminate].
    cbn. intros Hi. injection Hi as <-. rewrite removeAt_cons.
    intros f [<-|Hf].
    + apply Point_eqb_neq in E. congruence.
    + exact (IH j Hnd' eq_refl f Hf).
Qed.

Lemma settle_snake_In (e : Env) (p c : Point) (g : Game) :
  grow g = false -> In c (snake (settle e p g)) -> c = p \/ In c (snake g).
Proof.
  intros Hgr. rewrite (settle_snake e p g Hgr).
  destruct (findFood p (foods g)); intros H.
  - destruct H; auto.
  - apply removelast_In in H. destruct H; auto.
Qed.

Lemma pantrySound_init (e : Env) (g : Game) : pantrySound (init e g).
Proof. split; intros f []. Qed.

Lemma pantrySound_settle (e : Env) (p : Point) (g : Game) :
  grow g = false -> NoDup (map Pos (foods g)) ->
  pantrySound g -> pantrySound (settle e p g).
Proof.
  intros Hgr Hnd [Hoff Hlife]. split.
  - intros f Hf Hon.
    assert (Hold : In f (foods g)) by (apply settle_foods_In in Hf; tauto).
    destruct (settle_snake_In e p _ g Hgr Hon) as [Hp|Hs];
      [|exact (Hoff f Hold Hs)].
    rewrite settle_foods in Hf. apply filter_In in Hf. destruct Hf as [Hf _].
    destruct (findFood p (foods g)) as [i|] eqn:Ei.
    + exact (meal_clears_cell p (foods g) i Hnd Ei f Hf Hp).
    + exact (findFood_None p (foods g) Ei f Hf Hp).
  - intros f Hf. apply settle_foods_In in Hf. apply Hlife. tauto.
Qed.

Lemma pantrySound_Update (e : Env) (g g' : Game) :
  snakeSound g -> foodSound g -> pantrySound g ->
  Update e g = Ok g' -> pantrySound g'.
Proof.
  intros [_ [_ Hgr]] [_ [Hnd _]] Hp HU.
  destruct (steered_fields e g) as [Hsn [Hfo [Hgr' _]]].
  assert (Hst : pantrySound (steered e g)).
  { unfold pantrySound. rewrite Hsn, Hfo. exact Hp. }
  destruct (Update_Ok_cases e g g' HU)
    as [[_ ->]|[[_ [_ ->]]|[[_ [_ [_ ->]]]|[_ [_ [_ [p [_ HA]]]]]]]].
  - destruct (Space (keys e)); [apply pantrySound_init | exact Hp].
  - exact Hst.
  - unfold loseLife.
    match goal with |- context [if ?b then _ else _] => destruct b end.
    + apply pantrySound_init.
    + exact Hst.
  - assert (Hs : pantrySound
                   (settle e p (set_lastMove (steered e g) (tMove e)))).
    { apply pantrySound_settle; cbn.
      - congruence.
      - rewrite Hfo. exact Hnd.
      - exact Hst. }
    destruct Hs as [S1 S2].
    destruct (advance_Ok _ _ _ _ HA)
      as [->|[_ [_ [q [[Hq _] [_ ->]]]]]].
    + split; assumption.
    + unfold pantrySound. cbn [foods snake set_foods set_nextFoodTime].
      split; intros f Hf; apply in_app_iff in Hf;
        destruct Hf as [Hf|[<-|[]]]; auto.
Qed.

Lemma reachable_pantrySound (g : Game) : reachable g -> pantrySound g.
Proof.
  induction 1 as [e|e g g' Hr IH HU].
  - apply pantrySound_init.
  - exact (pantrySound_Update e g g' (reachable_snakeSound g Hr)
             (reachable_foodSound g Hr) IH HU).
Qed.

(** X3.  In every reachable state no food lies on a cell of the snake: the
    overlap of the head with a food lasts only inside the call that eats
    it. *)
Theorem no_food_under_the_snake (g : Game) (f : Food) :
  reachable g -> In f (foods g) -> ~ In (Pos f) (snake g).
Proof.
  intros Hr. destruct (reachable_pantrySound g Hr) as [H _]. apply H.
Qed.

Lemma no_food_under_the_snake_witness :
  ~ In (mkPoint 2 0) (snake afterMeal).
Proof.
  apply (no_food_under_the_snake afterMeal
           (mkFood (mkPoint 2 0) (1300 * Time.Millisecond)
                   (4 * Time.Second)) reachable_afterMeal).
  rewrite afterMeal_state. right. right. left. reflexivity.
Defined.

(** X4.  Every food of a reachable state has the lifetime of 4 s. *)
Theorem food_lifetime_is_4s (g : Game) (f : Food) :
  reachable g -> In f (foods g) -> Lifetime f = 4 * Time.Second.
Proof.
  intros Hr. destruct (reachable_pantrySound g Hr) as [_ H]. apply H.
Qed.

Lemma food_lifetime_is_4s_witness : Lifetime oldApple = 4 * Time.Second.
Proof.
  apply (food_lifetime_is_4s lastLife oldApple reachable_lastLife).
  vm_compute. left. reflexivity.
Defined.

(* ------------------------------------------------------------------ *)
(** ** What a step without collision does to length and score *)

Lemma findFood_In (p : Point) (fs : list Food) (i : nat) :
  findFood p fs = Some i -> In p (map Pos fs).
Proof.
  revert i. induction fs as [|f0 l IH]; intros i; [discriminate|].
  cbn [findFood map]. destruct (Point_eqb p (Pos f0)) eqn:E.
  - intros _. left. apply Point_eqb_eq in E. congruence.
  - destruct (findFood p l) as [j|]; [|discriminate].
    intros _. right. exact (IH j eq_refl).
Qed.

(** X5 (meal and length).  Take a due step from a reachable Playing state
    that finds no collision, and let [p] be the new head.  If a food lies
    on [p], the snake becomes [p] in front of all its cells (one cell
    longer), the score goes up by 10 in Go's arithmetic, and no food is
    left on [p].  If no food lies on [p], the snake becomes [p] in front of
    its cells but the last (same length) and the score is unchanged.  Lives
    are unchanged in both cases. *)
Theorem meal_and_length (e : Env) (g g' : Game) (p : Point) :
  reachable g -> gameOver g = false -> due e g = true ->
  candidate (steered e g) = Some p -> collides (steered e g) = false ->
  Update e g = Ok g' ->
  lives g' = lives g
  /\ (In p (map Pos (foods g)) ->
      snake g' = p :: snake g
      /\ score g' = GoInt.add (score g) 10
      /\ forall f, In f (foods g') -> Pos f <> p)
  /\ (~ In p (map Pos (foods g)) ->
      snake g' = p :: removelast (snake g)
      /\ length (snake g') = length (snake g)
      /\ score g' = score g).
Proof.
  intros Hr Hgo Hd Hp Hc HU.
  destruct (reachable_snakeSound g Hr) as [_ [Hlen Hgr]].
  destruct (steered_fields e g)
    as [Hsn [Hfo [Hgr' [_ [_ [Hsc [Hli _]]]]]]].
  pose proof (reach_Update e g g' Hr HU) as Hr'.
  rewrite (Update_advance e g p Hgo Hd Hp Hc) in HU.
  destruct (advance_frame _ _ _ _ HU) as [E1 [_ [_ [E2 [E3 _]]]]].
  cbn [lives set_lastMove] in E2.
  rewrite settle_snake in E1 by (cbn; congruence).
  rewrite settle_score in E3.
  cbn [foods snake score set_lastMove] in E1, E3.
  rewrite Hfo, Hsn in E1. rewrite Hfo, Hsc in E3.
  split; [congruence|]. split.
  - intros Hin. destruct (findFood_Some p (foods g) Hin) as [i Ei].
    rewrite Ei in E1, E3. repeat split; try assumption.
    intros f Hf C. destruct (reachable_pantrySound g' Hr') as [Hoff _].
    apply (Hoff f Hf). rewrite C, E1. now left.
  - intros Hnot. destruct (findFood p (foods g)) as [i|] eqn:Ei.
    + exfalso. apply Hnot. exact (findFood_In p (foods g) i Ei).
    + destruct (snake g) as [|hd tl] eqn:Hs;
        [unfold initialLen in Hlen; simpl in Hlen; lia|].
      assert (E : removelast (p :: hd :: tl) = p :: removelast (hd :: tl))
        by reflexivity.
      rewrite E in E1. repeat split; try assumption.
      rewrite E1. cbn [length]. rewrite removelast_length. reflexivity.
Qed.

Lemma meal_and_length_witness :
  exists g',
    Update (quietAt (1500 * Time.Millisecond) [(3, 0)])
           (play (firstn 4 fillAndEat) startGame) = Ok g'
    /\ length (snake g') = 4%nat /\ score g' = 10.
Proof.
  assert (HU : exists g',
             Update (quietAt (1500 * Time.Millisecond) [(3, 0)])
                    (play (firstn 4 fillAndEat) startGame) = Ok g')
    by (eexists; vm_compute; reflexivity).
  destruct HU as [g' HU]. exists g'. split; [exact HU|].
  destruct (meal_and_length (quietAt (1500 * Time.Millisecond) [(3, 0)])
              (play (firstn 4 fillAndEat) startGame) g' (mkPoint 11 5))
    as [_ [H _]].
  - apply reachable_play, reach_main.
  - vm_compute. reflexivity.
  - vm_compute. reflexivity.
  - vm_compute. reflexivity.
  - vm_compute. reflexivity.
  - exact HU.
  - destruct H as [H1 [H2 _]].
    + vm_compute. right. right. right. left. reflexivity.
    + rewrite H1, H2. split; vm_compute; reflexivity.
Defined.

(* ------------------------------------------------------------------ *)
(** ** Lives and phase *)

Lemma reachable_over_no_lives (g : Game) :
  reachable g -> gameOver g = true -> lives g = 0.
Proof.
  induction 1 as [e|e g g' Hr IH HU]; [discriminate|].
  destruct (reachable_livesSound g Hr) as [Hrange Hpos].
  destruct (steered_fields e g) as [_ [_ [_ [Hgo [_ [_ [Hli _]]]]]]].
  destruct (Update_Ok_cases e g g' HU)
    as [[Hover ->]|[[Hplay [_ ->]]|[[Hplay [_ [_ ->]]]|[Hplay [_ [_ [p [_ HA]]]]]]]].
  - destruct (Space (keys e)); [discriminate | auto].
  - rewrite Hgo. congruence.
  - specialize (Hpos Hplay).
    rewrite loseLife_exact by (cbn; rewrite Hli; lia).
    cbn [lives set_lastMove]. rewrite Hli.
    destruct (Z.gtb_spec (lives g - 1) 0); cbn; [discriminate | lia].
  - destruct (advance_frame _ _ _ _ HA) as [_ [E1 _]].
    cbn in E1. rewrite E1, Hgo. congruence.
Qed.

(** X6.  In every reachable state lives are at most 3, and the phase is
    GameOver exactly when no life is left. *)
Theorem game_over_iff_no_lives (g : Game) :
  reachable g ->
  lives g <= 3 /\ (gameOver g = true <-> lives g = 0).
Proof.
  intros Hr. destruct (reachable_livesSound g Hr) as [Hrange Hpos].
  split; [lia|]. split.
  - apply reachable_over_no_lives. exact Hr.
  - intros H0. destruct (gameOver g); [reflexivity|].
    specialize (Hpos eq_refl). lia.
Qed.

Lemma game_over_iff_no_lives_witness :
  lives lostGame <= 3 /\ (gameOver lostGame = true <-> lives lostGame = 0).
Proof.
  apply game_over_iff_no_lives.
  apply reachable_play. exact reachable_lastLife.
Defined.

(* ------------------------------------------------------------------ *)
(** ** Two turns between two steps *)

(** X7.  The reversal guard of lines 69-76 compares an intent with the
    buffered heading, not with the direction of the last move.  Take a
    reachable Playing state whose head was reached from its neck in
    direction [h] and whose heading is still [h].  Two calls that are not
    due, the first with the key of a perpendicular direction held and the
    second with the key of the opposite of [h], are both accepted and leave
    the heading at the opposite of [h]; the candidate head is then the neck,
    and the next due step is a self collision that costs a life. *)
Theorem double_turn_costs_a_life
        (g : Game) (e1 e2 e3 : Env) (h k : Heading)
        (hd neck : Point) (tl : list Point) :
  reachable g -> gameOver g = false ->
  dir g = delta h -> snake g = hd :: neck :: tl ->
  hd = stepFrom neck (delta h) ->
  k <> h -> k <> opposite h ->
  keys e1 = press k -> due e1 g = false ->
  keys e2 = press (opposite h) -> due e2 g = false ->
  keys e3 = noKeys -> due e3 g = true ->
  exists g1 g2 g3,
    Update e1 g = Ok g1 /\ Update e2 g1 = Ok g2 /\ Update e3 g2 = Ok g3
    /\ dir g1 = delta k
    /\ dir g2 = delta (opposite h)
    /\ candidate g2 = Some neck
    /\ lives g3 = lives g - 1.
Proof.
  intros Hr Hgo Hd Hs Hhd Hkh Hko K1 D1 K2 D2 K3 D3.
  destruct (reachable_boardSound g Hr) as [Hgrid _].
  destruct (reachable_livesSound g Hr) as [Hrange Hpos].
  specialize (Hpos Hgo).
  assert (Hneck : inGrid neck /\ inGrid hd).
  { rewrite Hs in Hgrid. inversion Hgrid as [|? ? H1 H2]; subst.
    inversion H2; subst. split; assumption. }
  destruct Hneck as [Hn Hh].
  set (g1 := set_dir g (delta k)).
  set (g2 := set_dir g (delta (opposite h))).
  assert (S1 : steered e1 g = g1).
  { unfold steered, directionInput. rewrite K1, Hd.
    destruct h, k; cbn [opposite] in Hko; try congruence; reflexivity. }
  assert (S2 : steered e2 g1 = g2).
  { unfold steered, directionInput. rewrite K2. unfold g1. cbn [dir set_dir].
    destruct h, k; cbn [opposite] in Hko; try congruence; reflexivity. }
  assert (S3 : steered e3 g2 = g2) by (apply steered_noKeys; exact K3).
  assert (U1 : Update e1 g = Ok g1).
  { rewrite (Update_not_due e1 g Hgo D1), S1. reflexivity. }
  assert (U2 : Update e2 g1 = Ok g2).
  { rewrite (Update_not_due e2 g1 Hgo D2), S2. reflexivity. }
  assert (C : candidate g2 = Some neck).
  { unfold candidate, g2. cbn [snake dir set_dir]. rewrite Hs, Hhd.
    rewrite (stepFrom_exact neck h Hn).
    rewrite stepFrom_exact.
    - f_equal. destruct neck as [x y]. destruct h; cbn; f_equal; lia.
    - rewrite <- (stepFrom_exact neck h Hn), <- Hhd. exact Hh. }
  assert (Hc : collides (steered e3 g2) = true).
  { rewrite S3. apply collides_iff. exists neck. split; [exact C|].
    right. unfold g2. cbn [snake set_dir]. rewrite Hs. right. now left. }
  exists g1, g2. eexists.
  split; [exact U1|]. split; [exact U2|].
  split; [exact (Update_collision e3 g2 Hgo D3 Hc)|].
  split; [reflexivity|]. split; [reflexivity|]. split; [exact C|].
  rewrite S3. rewrite loseLife_exact by (cbn; lia).
  cbn [lives set_lastMove set_dir g2].
  destruct (lives g - 1 >? 0); reflexivity.
Qed.

Lemma double_turn_costs_a_life_witness :
  exists g1 g2 g3,
    Update (withKeys (press Up) (quietAtMs 1030)) startGame = Ok g1
    /\ Update (withKeys (press Left) (quietAtMs 1060)) g1 = Ok g2
    /\ Update (quietAtMs 1100) g2 = Ok g3
    /\ lives g3 = 2.
Proof.
  destruct (double_turn_costs_a_life startGame
              (withKeys (press Up) (quietAtMs 1030))
              (withKeys (press Left) (quietAtMs 1060))
              (quietAtMs 1100) Right Up
              (mkPoint 6 5) (mkPoint 5 5) [mkPoint 4 5])
    as (g1 & g2 & g3 & U1 & U2 & U3 & _ & _ & _ & L);
    [ first [ apply reach_main | discriminate | vm_compute; reflexivity ] ..
    | ].
  exists g1, g2, g3.
  split; [exact U1|]. split; [exact U2|]. split; [exact U3 | exact L].
Defined.

(* ------------------------------------------------------------------ *)
(** ** New session *)

(** X8.  In phase GameOver the arrow keys and the clock gate play no part:
    the call returns the state unchanged unless Space is held, and with
    Space held it returns the very state in which [main] starts the game
    under the same clock readings, whatever the finished session was. *)
Theorem restart_is_a_fresh_start (e : Env) (g : Game) :
  gameOver g = true ->
  Update e g = Ok (if Space (keys e) then newGame e else g).
Proof.
  intros Hgo. rewrite (Update_gameOver e g Hgo).
  destruct (Space (keys e)); reflexivity.
Qed.

Lemma restart_is_a_fresh_start_witness :
  Update (withKeys (mkKeys true false false true true) (quietAtMs 9000))
         lostGame
  = Ok (newGame (quietAtMs 9000)).
Proof.
  apply (restart_is_a_fresh_start
           (withKeys (mkKeys true false false true true) (quietAtMs 9000))
           lostGame).
  vm_compute. reflexivity.
Defined.

(* ------------------------------------------------------------------ *)
(** ** Panics *)

(** X9.  The only run-time panic of [Update] is the read of [g.snake[0]]
    on a snake without cells, in a due step of phase Playing; no state
    reachable from [main] has such a snake, so there [Update] never
    panics. *)
Theorem panic_only_without_head (e : Env) (g : Game) :
  (Update e g = Panic
   <-> gameOver g = false /\ due e g = true /\ snake g = [])
  /\ (reachable g -> Update e g <> Panic).
Proof.
  assert (Hiff : Update e g = Panic
                 <-> gameOver g = false /\ due e g = true /\ snake g = []).
  { split.
    - intros HP. destruct (gameOver g) eqn:Hgo.
      { rewrite (Update_gameOver e g Hgo) in HP. discriminate. }
      destruct (due e g) eqn:Hd.
      2:{ rewrite (Update_not_due e g Hgo Hd) in HP. discriminate. }
      destruct (snake g) as [|hd tl] eqn:Hs; [auto|]. exfalso.
      destruct (collides (steered e g)) eqn:Hc.
      { rewrite (Update_collision e g Hgo Hd Hc) in HP. discriminate. }
      destruct (candidate_some (steered e g)) as [p Hp].
      { destruct (steered_fields e g) as [-> _]. rewrite Hs. discriminate. }
      rewrite (Update_advance e g p Hgo Hd Hp Hc) in HP.
      exact (foodSpawnLogic_no_panic _ _ _ _ HP).
    - intros [Hgo [Hd Hs]]. exact (Update_panics e g Hgo Hd Hs). }
  split; [exact Hiff|].
  intros Hr HP. apply Hiff in HP. destruct HP as [_ [_ Hs]].
  destruct (reachable_snakeSound g Hr) as [_ [Hlen _]].
  rewrite Hs in Hlen. unfold initialLen in Hlen. simpl in Hlen. lia.
Qed.

Lemma panic_only_without_head_witness :
  Update (quietAtMs 7400) lastLife <> Panic
  /\ Update (quietAtMs 100) zeroGame = Panic.
Proof.
  split.
  - apply (proj2 (panic_only_without_head (quietAtMs 7400) lastLife)).
    exact reachable_lastLife.
  - apply (proj1 (panic_only_without_head (quietAtMs 100) zeroGame)).
    vm_compute. auto.
Defined.

(* ------------------------------------------------------------------ *)
(** ** When the retry loop of [spawnFood] ends *)

Lemma Point_eq_dec (p q : Point) : {p = q} + {p <> q}.
Proof. decide equality; apply Z.eq_dec. Qed.

Lemma drawCell_drawFor (p : Point) : inGrid p -> drawCell (drawFor p) = p.
Proof.
  intros Hp. destruct (proj1 (inGrid_bounds p) Hp) as [Hx Hy].
  destruct p as [x y]. unfold drawCell, drawFor, Intn. cbn [fst snd X Y] in *.
  change (screenWidth / gridSize) with 13.
  change (screenHeight / gridSize) with 10.
  rewrite !Z.mod_small by lia. reflexivity.
Qed.

Lemma cellOf_inGrid (k : nat) : (k < 130)%nat -> inGrid (cellOf k).
Proof.
  intros Hk. apply inGrid_bounds. unfold cellOf. cbn [X Y].
  pose proof (Nat.mod_upper_bound k 10 ltac:(discriminate)).
  pose proof (Nat.Div0.div_lt_upper_bound k 10 13 ltac:(simpl; lia)).
  lia.
Qed.

Lemma cellOf_inj (a b : nat) : cellOf a = cellOf b -> a = b.
Proof.
  intros E. pose proof (f_equal X E) as E1. pose proof (f_equal Y E) as E2.
  unfold cellOf in E1, E2. cbn [X Y] in E1, E2.
  apply Nat2Z.inj in E1, E2.
  rewrite (Nat.div_mod_eq a 10), (Nat.div_mod_eq b 10). congruence.
Qed.

Lemma inGrid_cellOf (p : Point) :
  inGrid p -> exists k, (k < 130)%nat /\ cellOf k = p.
Proof.
  intros Hp. destruct (proj1 (inGrid_bounds p) Hp) as [Hx Hy].
  destruct p as [x y]. cbn [X Y] in *.
  exists (Z.to_nat x * 10 + Z.to_nat y)%nat. split; [lia|].
  assert (D : ((Z.to_nat y + Z.to_nat x * 10) / 10 = Z.to_nat x)%nat).
  { rewrite Nat.div_add by discriminate.
    rewrite Nat.div_small by lia. reflexivity. }
  assert (M : ((Z.to_nat y + Z.to_nat x * 10) mod 10 = Z.to_nat y)%nat).
  { rewrite Nat.Div0.mod_add. apply Nat.mod_small. lia. }
  unfold cellOf. rewrite (Nat.add_comm (Z.to_nat x * 10)), D, M.
  f_equal; lia.
Qed.

Lemma map_inj_NoDup {A B : Type} (f : A -> B) (l : list A) :
  (forall a b, f a = f b -> a = b) -> NoDup l -> NoDup (map f l).
Proof.
  intros Hinj. induction 1 as [|a l Hin _ IH]; simpl; constructor; [|exact IH].
  intros C. apply in_map_iff in C. destruct C as [b [E Hb]].
  apply Hinj in E. subst b. exact (Hin Hb).
Qed.

(** Fewer than 130 occupied cells leave a cell of the grid free. *)
Lemma some_cell_is_left (occ : list Point) :
  (length occ < 130)%nat ->
  exists k, (k < 130)%nat /\ ~ In (cellOf k) occ.
Proof.
  intros Hlen.
  destruct (Forall_Exists_dec (fun k => In (cellOf k) occ)
              (fun k => in_dec Point_eq_dec (cellOf k) occ) (seq 0 130))
    as [Hall|Hex].
  - exfalso.
    assert (Hincl : incl (map cellOf (seq 0 130)) occ).
    { intros c Hc. apply in_map_iff in Hc. destruct Hc as [k [<- Hk]].
      rewrite Forall_forall in Hall. exact (Hall k Hk). }
    pose proof (NoDup_incl_length
                  (map_inj_NoDup cellOf (seq 0 130) cellOf_inj
                     (seq_NoDup 130 0)) Hincl) as Hle.
    rewrite length_map, length_seq in Hle. lia.
  - apply Exists_exists in Hex. destruct Hex as [k [Hk Hfree]].
    apply in_seq in Hk. exists k. split; [lia | exact Hfree].
Qed.

Lemma free_cell_exists (g : Game) :
  (length (snake g) + length (foods g) < 130)%nat ->
  exists q, inGrid q /\ freeCell g q.
Proof.
  intros Hlen.
  destruct (some_cell_is_left (snake g ++ map Pos (foods g))) as [k [Hk Hf]].
  { rewrite length_app, length_map. exact Hlen. }
  exists (cellOf k). split; [apply cellOf_inGrid; exact Hk|].
  split; intros C; apply Hf; apply in_app_iff; auto.
Qed.

(** X10.  [spawnFood] returns exactly when one of its draws lands on a cell
    free of snake and food.  While snake and food together hold fewer than
    the 130 cells of the grid, a single suitable draw makes it return; on a
    board without free cell it retries for ever, whatever the draws. *)
Theorem spawnFood_ends_iff_free_cell (t : Time.Time) (g : Game) :
  (forall ds, (exists g', spawnFood ds t g = Ok g') <-> offersFree g ds)
  /\ ((length (snake g) + length (foods g) < 130)%nat ->
      exists d g', spawnFood [d] t g = Ok g')
  /\ ((forall p, inGrid p -> ~ freeCell g p) ->
      forall ds, spawnFood ds t g = Spinning).
Proof.
  split; [|split].
  - intros ds. split.
    + intros [g' H].
      destruct (Exists_dec (fun d => freeCell g (drawCell d)) ds) as [Y|N].
      * intros d. destruct (overlap g (drawCell d)) eqn:E.
        -- right. intros C. apply overlap_free in C. congruence.
        -- left. apply overlap_free. exact E.
      * exact Y.
      * rewrite (spawnFood_spins ds t g N) in H. discriminate.
    + apply spawnFood_returns.
  - intros Hlen. destruct (free_cell_exists g Hlen) as [q [Hq Hf]].
    exists (drawFor q). apply spawnFood_returns.
    apply Exists_cons_hd. rewrite drawCell_drawFor by exact Hq. exact Hf.
  - intros Hfull ds. apply spawnFood_spins. intros C.
    apply Exists_exists in C. destruct C as [d [_ Hd]].
    exact (Hfull (drawCell d) (drawCell_inGrid d) Hd).
Qed.

Lemma spawnFood_ends_iff_free_cell_witness :
  (exists d g', spawnFood [d] 0 afterMeal = Ok g')
  /\ spawnFood [(3, 4); (12, 9); (0, 0)] 0 fullBoard = Spinning.
Proof.
  split.
  - apply (proj1 (proj2 (spawnFood_ends_iff_free_cell 0 afterMeal))).
    rewrite afterMeal_state. simpl. lia.
  - apply (proj2 (proj2 (spawnFood_ends_iff_free_cell 0 fullBoard))).
    intros p Hp [Hs _]. apply Hs.
    destruct (inGrid_cellOf p Hp) as [k [Hk <-]].
    unfold fullBoard. cbn [snake]. apply in_map. apply in_seq. lia.
Defined.

(* ------------------------------------------------------------------ *)
(** ** A call can always return while the board has room *)

Lemma settle_length (e : Env) (p : Point) (g : Game) :
  grow g = false ->
  (length (snake (settle e p g)) <= S (length (snake g)))%nat
  /\ (length (foods (settle e p g)) <= length (foods g))%nat.
Proof.
  intros Hgr. rewrite (settle_snake e p g Hgr), settle_foods. split.
  - destruct (findFood p (foods g)); [simpl; lia|].
    rewrite removelast_length. simpl. lia.
  - etransitivity; [apply filter_short|].
    destruct (findFood p (foods g)); [apply removeAt_length | lia].
Qed.

(** X11.  From a reachable state whose snake has fewer than 125 cells,
    whatever the keys and the clock readings, some draw makes the call of
    [Update] return a state: the game cannot hang for want of room. *)
Theorem Update_can_return (e : Env) (g : Game) :
  reachable g -> (length (snake g) < 125)%nat ->
  exists d g', Update (withDraws [d] e) g = Ok g'.
Proof.
  intros Hr Hlen.
  destruct (reachable_snakeSound g Hr) as [_ [Hmin Hgr]].
  destruct (reachable_foodSound g Hr) as [Hcap _].
  assert (Hne : snake g <> []).
  { intros C. rewrite C in Hmin. unfold initialLen in Hmin. simpl in Hmin. lia. }
  destruct (steered_fields e g) as [Hsn [Hfo [Hgr' _]]].
  destruct (candidate_some (steered e g)) as [p Hp]; [congruence|].
  set (s := settle e p (set_lastMove (steered e g) (tMove e))).
  destruct (settle_length e p (set_lastMove (steered e g) (tMove e)))
    as [L1 L2]; [cbn; congruence|].
  cbn [snake foods set_lastMove] in L1, L2. rewrite Hsn in L1.
  rewrite Hfo in L2. fold s in L1, L2.
  destruct (free_cell_exists s) as [q [Hq Hf]].
  { unfold foodCap in Hcap. lia. }
  exists (drawFor q).
  apply Update_returns; [exact Hne|].
  intros p' Hp'.
  change (steered (withDraws [drawFor q] e) g) with (steered e g) in *.
  assert (p' = p) by congruence. subst p'.
  change (settle (withDraws [drawFor q] e) p
            (set_lastMove (steered e g) (tMove (withDraws [drawFor q] e))))
    with s.
  apply Exists_cons_hd. rewrite drawCell_drawFor by exact Hq. exact Hf.
Qed.

Lemma Update_can_return_witness :
  exists d g', Update (withDraws [d] (quietAtMs 2500)) afterMeal = Ok g'.
Proof.
  apply (Update_can_return (quietAtMs 2500) afterMeal reachable_afterMeal).
  rewrite afterMeal_state. simpl. lia.
Defined.

(* ------------------------------------------------------------------ *)
(** ** Tiles *)

(** X12.  Every cell of the snake and every food of a reachable state is
    drawn at pixel (24 X, 24 Y), and its 24-pixel tile lies inside the
    320 x 240 screen that [Layout] reports. *)
Theorem tiles_stay_on_screen (g : Game) (p : Point) (ow oh : Z) :
  reachable g ->
  In p (snake g) \/ In p (map Pos (foods g)) ->
  tileOrigin p = (24 * X p, 24 * Y p)
  /\ 0 <= fst (tileOrigin p)
  /\ fst (tileOrigin p) + gridSize <= fst (Layout ow oh)
  /\ 0 <= snd (tileOrigin p)
  /\ snd (tileOrigin p) + gridSize <= snd (Layout ow oh).
Proof.
  intros Hr Hp.
  assert (Hin : inGrid p).
  { destruct Hp as [Hp|Hp].
    - destruct (reachable_boardSound g Hr) as [B _].
      rewrite Forall_forall in B. exact (B p Hp).
    - destruct (reachable_foodSound g Hr) as [_ [_ F]].
      rewrite Forall_forall in F. apply in_map_iff in Hp.
      destruct Hp as [f [<- Hf]]. exact (F f Hf). }
  destruct (proj1 (inGrid_bounds p) Hin) as [Hx Hy].
  assert (E : tileOrigin p = (24 * X p, 24 * Y p)).
  { unfold tileOrigin. change gridSize with 24.
    assert (P : 2 ^ 63 = 9223372036854775808) by reflexivity.
    rewrite !wrap_id;
      [f_equal; lia | |];
      unfold GoInt.in_range, GoInt.min_int, GoInt.max_int; rewrite P; lia. }
  rewrite E. unfold Layout. cbn [fst snd].
  change gridSize with 24. change screenWidth with 320.
  change screenHeight with 240. repeat split; try lia.
Qed.

Lemma tiles_stay_on_screen_witness :
  tileOrigin (mkPoint 12 5) = (288, 120).
Proof.
  destruct (tiles_stay_on_screen lastLife (mkPoint 12 5) 640 480
              reachable_lastLife) as [E _].
  - left. vm_compute. left. reflexivity.
  - rewrite E. reflexivity.
Defined.

(* ------------------------------------------------------------------ *)
(** ** The flash of a food about to expire *)

Lemma Sub_exact (t u : Z) :
  0 <= t - u <= GoInt.max_int -> Time.Sub t u = t - u.
Proof.
  intros H. unfold Time.Sub, Time.minDuration, Time.maxDuration.
  unfold GoInt.min_int, GoInt.max_int in *.
  destruct (Z.ltb_spec (t - u) (- 2 ^ 63)); [lia|].
  destruct (Z.ltb_spec (2 ^ 63 - 1) (t - u)); [lia | reflexivity].
Qed.

(** The test of line 234 on a food of 4 s whose age is a [Duration]. *)
Lemma last_second_test (f : Food) (el : Z) :
  Lifetime f = 4 * Time.Second -> 0 <= el <= GoInt.max_int ->
  (GoInt.sub (Lifetime f) el <? Time.Second) = (3 * Time.Second <? el).
Proof.
  intros Hl Hel. rewrite Hl. unfold GoInt.sub.
  assert (P : 2 ^ 63 = 9223372036854775808) by reflexivity.
  rewrite wrap_id.
  - unfold Time.Second, Time.Millisecond.
    destruct (Z.ltb_spec (4 * (1000 * 1000000) - el) (1000 * 1000000)),
             (Z.ltb_spec (3 * (1000 * 1000000)) el); try reflexivity; lia.
  - unfold GoInt.in_range, GoInt.min_int, GoInt.max_int in *.
    unfold Time.Second, Time.Millisecond. rewrite P in *. lia.
Qed.

(** The parity of the 100 ms slot flips when 100 ms are added. *)
Lemma slot_parity_flips (el : Z) :
  0 <= el ->
  (Z.rem (Z.quot (Milliseconds (el + 100 * Time.Millisecond)) 100) 2 =? 0)
  = negb (Z.rem (Z.quot (Milliseconds el) 100) 2 =? 0).
Proof.
  intros Hel. unfold Milliseconds, Time.Millisecond.
  rewrite (Z.quot_div_nonneg (el + 100 * 1000000) 1000000) by lia.
  rewrite (Z.quot_div_nonneg el 1000000) by lia.
  rewrite (Z.div_add el 100 1000000) by lia.
  assert (Hq : 0 <= el / 1000000) by (apply Z.div_pos; lia).
  rewrite (Z.quot_div_nonneg (el / 1000000 + 100) 100) by lia.
  rewrite (Z.quot_div_nonneg (el / 1000000) 100) by lia.
  replace (el / 1000000 + 100) with (el / 1000000 + 1 * 100) by lia.
  rewrite Z.div_add by lia.
  set (n := el / 1000000 / 100).
  assert (Hn : 0 <= n) by (apply Z.div_pos; lia).
  rewrite !Z.rem_mod_nonneg by lia.
  pose proof (Z.mod_pos_bound n 2 ltac:(lia)) as B.
  pose proof (Z.div_mod n 2 ltac:(lia)) as Dn.
  pose proof (Z.mod_pos_bound (n + 1) 2 ltac:(lia)) as B'.
  pose proof (Z.div_mod (n + 1) 2 ltac:(lia)) as Dn'.
  destruct (Z.eqb_spec ((n + 1) mod 2) 0), (Z.eqb_spec (n mod 2) 0);
    simpl; try reflexivity; lia.
Qed.

(** X13.  In the frame drawn at [now], a food of a reachable state that is
    at most 3 s old is visible.  Once it is older than 3 s it flashes in
    slots of 100 ms: its visibility 100 ms later is the opposite of its
    visibility at [now]. *)
Theorem food_flash (g : Game) (f : Food) (now : Time.Time) :
  reachable g -> In f (foods g) ->
  (0 <= now - Spawned f <= 3 * Time.Second -> foodVisible now f = true)
  /\ (3 * Time.Second < now - Spawned f ->
      now - Spawned f + 100 * Time.Millisecond <= GoInt.max_int ->
      foodVisible (now + 100 * Time.Millisecond) f
      = negb (foodVisible now f)).
Proof.
  intros Hr Hf.
  destruct (reachable_pantrySound g Hr) as [_ Hlife].
  specialize (Hlife f Hf).
  assert (P : 2 ^ 63 = 9223372036854775808) by reflexivity.
  assert (S3 : 3 * Time.Second = 3000000000) by reflexivity.
  assert (M100 : 100 * Time.Millisecond = 100000000) by reflexivity.
  split.
  - intros Hel. unfold foodVisible. cbv zeta.
    rewrite Sub_exact
      by (unfold GoInt.max_int; rewrite P; rewrite S3 in Hel; lia).
    rewrite (last_second_test f _ Hlife)
      by (unfold GoInt.max_int; rewrite P; rewrite S3 in Hel; lia).
    destruct (Z.ltb_spec (3 * Time.Second) (now - Spawned f));
      [lia | reflexivity].
  - intros Hel Hmax. unfold foodVisible. cbv zeta.
    unfold GoInt.max_int in Hmax. rewrite P in Hmax.
    rewrite S3 in Hel. rewrite M100 in Hmax.
    rewrite !Sub_exact
      by (unfold GoInt.max_int; rewrite P, ?M100; lia).
    rewrite !(last_second_test f _ Hlife)
      by (unfold GoInt.max_int; rewrite P, ?M100; lia).
    replace (now + 100 * Time.Millisecond - Spawned f)
      with (now - Spawned f + 100 * Time.Millisecond) by lia.
    rewrite S3, M100.
    destruct (Z.ltb_spec 3000000000 (now - Spawned f + 100000000));
      [|lia].
    destruct (Z.ltb_spec 3000000000 (now - Spawned f)); [|lia].
    rewrite <- M100. apply slot_parity_flips. lia.
Qed.

Lemma food_flash_witness :
  foodVisible (5000 * Time.Millisecond) oldApple = true
  /\ foodVisible (5800 * Time.Millisecond) oldApple = false
  /\ foodVisible (5900 * Time.Millisecond) oldApple = true.
Proof.
  destruct (food_flash lastLife oldApple (5000 * Time.Millisecond)
              reachable_lastLife) as [H1 _].
  { vm_compute. left. reflexivity. }
  destruct (food_flash lastLife oldApple (5800 * Time.Millisecond)
              reachable_lastLife) as [_ H2].
  { vm_compute. left. reflexivity. }
  split; [|split].
  - apply H1. vm_compute. split; discriminate.
  - vm_compute. reflexivity.
  - change (5900 * Time.Millisecond)
      with (5800 * Time.Millisecond + 100 * Time.Millisecond).
    rewrite H2; [vm_compute; reflexivity | vm_compute; reflexivity
                | vm_compute; discriminate].
Defined.

(* ------------------------------------------------------------------ *)
(** ** [itoa] writes decimal numerals *)

Lemma digitByte_code (i : Z) :
  0 <= i -> Z.of_N (N_of_ascii (digitByte i)) = 48 + i mod 10.
Proof.
  intros Hi. unfold digitByte.
  rewrite Z.rem_mod_nonneg by lia.
  pose proof (Z.mod_pos_bound i 10 ltac:(lia)) as B.
  rewrite Z.mod_small by lia.
  rewrite N_ascii_embedding by lia. lia.
Qed.

Lemma digitByte_not_minus (i : Z) :
  0 <= i -> Ascii.eqb (digitByte i) "-" = false.
Proof.
  intros Hi. apply Ascii.eqb_neq. intros C.
  pose proof (digitByte_code i Hi) as E. rewrite C in E.
  pose proof (Z.mod_pos_bound i 10 ltac:(lia)) as B.
  change (Z.of_N (N_of_ascii "-")) with 45 in E. lia.
Qed.

Lemma readDigits_digit (v i : Z) (rest : list ascii) :
  0 <= i ->
  readDigits v (digitByte i :: rest) = readDigits (10 * v + i mod 10) rest.
Proof.
  intros Hi. cbn [readDigits]. rewrite (digitByte_code i Hi).
  pose proof (Z.mod_pos_bound i 10 ltac:(lia)) as B.
  destruct (Z.leb_spec 48 (48 + i mod 10)); [|lia].
  destruct (Z.leb_spec (48 + i mod 10) 57); [|lia].
  cbn [andb]. f_equal. lia.
Qed.

(** The loop on a value of at most [k] digits, with [k] bytes of room: it
    returns the digits in front of [out], most significant first. *)
Lemma itoaLoop_digits (k : nat) :
  forall (bp : nat) (i : Z) (out : list ascii),
    0 <= i < 10 ^ Z.of_nat k -> (k <= bp)%nat ->
    exists bp' pre,
      itoaLoop bp i out = Some (bp', pre ++ out)
      /\ (bp - k <= bp')%nat
      /\ (length pre + bp' = bp)%nat
      /\ (0 < i -> exists c rest,
             pre = c :: rest /\ Ascii.eqb c "-" = false)
      /\ readDigits 0 (pre ++ out) = readDigits i out.
Proof.
  induction k as [|k IH]; intros bp i out Hi Hk.
  - assert (i = 0) by (simpl in Hi; lia). subst i.
    exists bp, []. destruct bp; cbn; repeat split; try lia.
  - destruct (Z.gtb_spec i 0) as [Hpos|Hzero].
    + destruct bp as [|bp]; [lia|].
      assert (Hq : 0 <= Z.quot i 10 < 10 ^ Z.of_nat k).
      { rewrite Z.quot_div_nonneg by lia. split; [apply Z.div_pos; lia|].
        apply Z.div_lt_upper_bound; [lia|].
        rewrite Nat2Z.inj_succ, Z.pow_succ_r in Hi by lia. lia. }
      destruct (IH bp (Z.quot i 10) (digitByte i :: out) Hq ltac:(lia))
        as (bp' & pre & E & B1 & B2 & B3 & R).
      exists bp', (pre ++ [digitByte i]).
      rewrite <- app_assoc. cbn [app].
      split.
      { cbn [itoaLoop]. destruct (Z.gtb_spec i 0); [exact E | lia]. }
      split; [lia|]. split; [rewrite length_app; simpl; lia|].
      split.
      * intros _. destruct pre as [|c rest].
        -- exists (digitByte i), []. split; [reflexivity|].
           apply digitByte_not_minus. lia.
        -- destruct (Z.gtb_spec (Z.quot i 10) 0) as [Hq0|Hq0].
           ++ destruct (B3 Hq0) as (c' & rest' & E' & Hc).
              injection E' as -> ->.
              exists c', (rest' ++ [digitByte i]). auto.
           ++ exfalso. assert (Z.quot i 10 = 0) by lia.
              rewrite H in E. destruct bp; cbn in E;
                injection E as _ _ E; apply (f_equal (@length ascii)) in E;
                rewrite length_app in E; simpl in E; lia.
      * rewrite R. rewrite readDigits_digit by lia. f_equal.
        rewrite Z.quot_div_nonneg by lia.
        pose proof (Z.div_mod i 10 ltac:(lia)). lia.
    + assert (i = 0) by lia. subst i.
      exists bp, []. destruct bp; cbn; repeat split; try lia.
Qed.

(** X14.  [itoa] never overruns its 20-byte buffer: for every Go [int] it
    returns a string of at most 20 bytes.  Except for the least [int], that
    string is the decimal numeral of the argument: read back as digits
    after an optional minus sign it gives the argument.  For the least
    [int], whose negation overflows, the string is the bare sign. *)
Theorem itoa_decimal (i : Z) :
  GoInt.min_int <= i <= GoInt.max_int ->
  exists s,
    itoa i = Some s
    /\ (length s <= 20)%nat
    /\ (i <> GoInt.min_int -> readInt s = Some i)
    /\ (i = GoInt.min_int -> s = ["-"%char]).
Proof.
  intros Hr. unfold GoInt.min_int, GoInt.max_int in *.
  assert (P : 2 ^ 63 = 9223372036854775808) by reflexivity.
  rewrite P in *.
  assert (T19 : 10 ^ Z.of_nat 19 = 10000000000000000000) by reflexivity.
  unfold itoa. destruct (Z.eqb_spec i 0) as [->|Hnz].
  { exists ["0"%char]. repeat split; try (simpl; lia); try reflexivity;
      try discriminate. }
  destruct (Z.ltb_spec i 0) as [Hneg|Hpos].
  - destruct (Z.eq_dec i (- 9223372036854775808)) as [->|Hmin].
    + exists ["-"%char]. repeat split; try (simpl; lia).
    + rewrite wrap_id
        by (unfold GoInt.in_range, GoInt.min_int, GoInt.max_int;
            rewrite P; lia).
      destruct (itoaLoop_digits 19 20 (- i) []) as
        (bp' & pre & E & B1 & B2 & B3 & R); [rewrite T19; lia | lia |].
      rewrite E. destruct bp' as [|bp']; [lia|].
      exists ("-"%char :: pre ++ []). rewrite app_nil_r in *.
      split; [reflexivity|]. split; [simpl; lia|].
      split; [|intros C; exfalso; lia].
      intros _. destruct (B3 ltac:(lia)) as (c & rest & -> & Hc).
      cbn [readInt]. change (Ascii.eqb "-" "-") with true. cbv iota.
      rewrite R. cbn. f_equal. lia.
  - destruct (itoaLoop_digits 19 20 i []) as
      (bp' & pre & E & B1 & B2 & B3 & R); [rewrite T19; lia | lia |].
    rewrite E. exists (pre ++ []). rewrite app_nil_r in *.
    split; [reflexivity|]. split; [lia|].
    split; [|intros C; exfalso; lia].
    intros _. destruct (B3 ltac:(lia)) as (c & rest & -> & Hc).
    cbn [readInt]. rewrite Hc. exact R.
Qed.

Lemma itoa_decimal_witness :
  (exists s, itoa (-120) = Some s /\ readInt s = Some (-120))
  /\ itoa 30 = Some ["3"%char; "0"%char].
Proof.
  destruct (itoa_decimal (-120)) as (s & E & _ & R & _).
  { vm_compute. split; discriminate. }
  split.
  - exists s. split; [exact E|]. apply R. vm_compute. discriminate.
  - vm_compute. reflexivity.
Defined.

(* ------------------------------------------------------------------ *)
(** ** One poll never reverses *)

(** X15.  Whatever combination of keys is held, one pass through the
    direction input of lines 68-77 never turns a heading into its opposite:
    it keeps the heading or turns it by a quarter. *)
Theorem single_poll_never_reverses (k : Keys) (g : Game) (h : Heading) :
  dir g = delta h ->
  dir (directionInput k g) = delta h
  \/ exists h', dir (directionInput k g) = delta h'
                /\ h' <> h /\ h' <> opposite h.
Proof.
  intros Hd. unfold directionInput. rewrite Hd.
  destruct k as [u d l r sp].
  cbn [ArrowUp ArrowDown ArrowLeft ArrowRight].
  destruct h, u, d, l, r; cbn; rewrite ?Hd;
    first [ left; reflexivity
          | right; exists Up; repeat split; discriminate
          | right; exists Down; repeat split; discriminate
          | right; exists Left; repeat split; discriminate
          | right; exists Right; repeat split; discriminate ].
Qed.

Lemma single_poll_never_reverses_witness :
  dir (directionInput (mkKeys false false true true false) startGame)
  = delta Right.
Proof.
  destruct (single_poll_never_reverses
              (mkKeys false false true true false) startGame Right eq_refl)
    as [H|[h' [H [N1 N2]]]].
  - exact H.
  - vm_compute in H. destruct h'; try discriminate. congruence.
Defined.
